(** * peer_graph.py: the peer registry and the graph searches

    A shallow embedding of [peer_graph.py].  Python objects are modelled by
    the values they hold, mutation by explicit state passing, and a raised
    exception by the left injection of a sum, next to the state the raise
    leaves behind. *)

From stdpp Require Import gmap strings list fin_maps pretty relations.

Open Scope string_scope.
Open Scope list_scope.
Open Scope Z_scope.

Set Warnings "-clear-no-such-hyp".

(** ** Python exceptions raised by the module *)

Inductive exn : Type :=
  | Exception (msg : string)       (* raise Exception(msg) *)
  | AttributeError (msg : string)  (* a method the object does not have *)
  | KeyError (key : string)        (* dict[k] or set.remove(k) on a missing k *)
  | TypeError (msg : string)       (* a call with the wrong arguments *)
  | IndexError (msg : string)      (* a list index out of range *)
  | NameError (name : string)      (* a global name that is not bound *)
  | ValueError (msg : string).     (* e.g. list.remove(x) with x not in the list *)

(** [except ValueError]: the class [set_offline] catches.  KeyError derives
    from LookupError, not from ValueError. *)
Definition is_ValueError (e : exn) : bool :=
  match e with ValueError _ => true | _ => false end.

(** ** Insertion-ordered dictionaries keyed by strings

    [_peers] is a Python dict: iteration follows insertion order, which is
    what [set_offline] walks through, so it is kept as an association list
    with one entry per key. *)

Module PyDict.
Section Dict.
Context {V : Type}.

Definition t := list (string * V).

Fixpoint get (k : string) (d : t) : option V :=
  match d with
  | [] => None
  | (k', v) :: d' => if String.eqb k k' then Some v else get k d'
  end.

(* [k in d] *)
Definition contains (k : string) (d : t) : bool :=
  match get k d with Some _ => true | None => false end.

(* [d[k] = v]: an existing key keeps its place, a new key goes last *)
Fixpoint set (k : string) (v : V) (d : t) : t :=
  match d with
  | [] => [(k, v)]
  | (k', v') :: d' =>
      if String.eqb k k' then (k', v) :: d' else (k', v') :: set k v d'
  end.

(* [d.pop(k, None)] *)
Fixpoint pop (k : string) (d : t) : t :=
  match d with
  | [] => []
  | (k', v') :: d' => if String.eqb k k' then d' else (k', v') :: pop k d'
  end.

(* [list(d.keys())] *)
Definition keys (d : t) : list string := map fst d.
End Dict.
Arguments t : clear implicits.
End PyDict.

(** ** The registry object *)

(** The value stored under each id: the dict [{'connected': <set>}]. *)
Record entry : Type := Entry { connected : gset string }.

(** The attributes [__init__] gives a [Peer] instance. *)
Record Peer : Type := MkPeer { N : Z; _peers : PyDict.t entry }.

(** A method body: it runs on the instance and leaves an instance behind,
    also when it raises. *)
Definition M (A : Type) : Type := Peer → Peer * (exn + A).

#[global] Instance M_ret : MRet M := λ A a self, (self, inr a).
#[global] Instance M_bind : MBind M := λ A B f m self,
  match m self with
  | (self', inr a) => f a self'
  | (self', inl e) => (self', inl e)
  end.

Definition raise {A} (e : exn) : M A := λ self, (self, inl e).

(** [Peer.__init__] body: [self.N = N; self._peers = {}]. *)
Definition init (n : Z) : Peer := MkPeer n [].

Definition isonline (id : string) (self : Peer) : bool :=
  if PyDict.contains id (_peers self) then true else false.

Definition all_online (self : Peer) : list string := PyDict.keys (_peers self).

(** [len(self._peers[id]['connected'])] *)
Definition num_connected (id : string) : M Z :=
  λ self, match PyDict.get id (_peers self) with
          | Some e => (self, inr (Z.of_nat (size (connected e))))
          | None => (self, inl (KeyError id))
          end.

(** [{'connected': {*()}}]: unpacking the empty tuple into a set display
    gives the empty set. *)
Definition fresh_entry : entry := Entry ∅.

Definition set_online (id : string) : M unit :=
  λ self, if negb (PyDict.contains id (_peers self))
          then (MkPeer (N self) (PyDict.set id fresh_entry (_peers self)), inr tt)
          else (self, inr tt).

(** [s.remove(id)] on a set: raises KeyError when [id] is not a member. *)
Definition set_remove (id : string) (s : gset string) : exn + gset string :=
  if decide (id ∈ s) then inr (s ∖ {[id]}) else inl (KeyError id).

(** The loop of [set_offline]: [for k in self._peers:] with the body
    [try: self._peers[k]['connected'].remove(id) except ValueError: pass].
    The set is updated in place, so the entry keeps its position. *)
Fixpoint remove_from_all (id : string) (ks : list string) (d : PyDict.t entry)
  : PyDict.t entry * (exn + unit) :=
  match ks with
  | [] => (d, inr tt)
  | k :: ks' =>
      match PyDict.get k d with
      | None => (d, inl (KeyError k))
      | Some e =>
          match set_remove id (connected e) with
          | inr s' => remove_from_all id ks' (PyDict.set k (Entry s') d)
          | inl err =>
              if is_ValueError err then remove_from_all id ks' d
              else (d, inl err)
          end
      end
  end.

Definition set_offline (id : string) : M unit :=
  λ self, if PyDict.contains id (_peers self)
          then let d := PyDict.pop id (_peers self) in
               let '(d', r) := remove_from_all id (PyDict.keys d) d in
               (MkPeer (N self) d', r)
          else (self, inr tt).

(** [s.append(x)] where [s] is a set: sets have no such method, the
    attribute lookup raises before anything is changed. *)
Definition set_append (x : string) (s : gset string) : exn + gset string :=
  inl (AttributeError "'set' object has no attribute 'append'").

(** [self._peers[id]['connected'].append(x)] *)
Definition append_connected (id x : string) : M unit :=
  λ self, match PyDict.get id (_peers self) with
          | None => (self, inl (KeyError id))
          | Some e =>
              match set_append x (connected e) with
              | inr s' => (MkPeer (N self) (PyDict.set id (Entry s') (_peers self)), inr tt)
              | inl err => (self, inl err)
              end
          end.

Definition too_many (n : Z) : exn :=
  Exception ("Too many connections n > " +:+ pretty n).

(** [self._peers[id]['connected']] *)
Definition connected_of (id : string) : M (gset string) :=
  λ self, match PyDict.get id (_peers self) with
          | Some e => (self, inr (connected e))
          | None => (self, inl (KeyError id))
          end.

Definition len (s : gset string) : Z := Z.of_nat (size s).

Definition connect (id_from id_to : string) : M bool :=
  λ self,
    if String.eqb id_from id_to then raise (Exception "Cannot connect to self") self
    else if PyDict.contains id_from (_peers self) && PyDict.contains id_to (_peers self)
    then ((c_from ← connected_of id_from;
          if decide (id_to ∈ c_from) then mret true
          else
            c_to ← connected_of id_to;
            if (len c_from <? N self - 1) && (len c_to <? N self - 1)
            then append_connected id_from id_to ;;
                 append_connected id_to id_from ;;
                 mret true
            else raise (too_many (N self))) : M bool) self
    else (mret false : M bool) self.

(** A call of [self.connect] with the arguments [args]: [connect] binds
    exactly two positional arguments besides [self]; any other number is a
    TypeError raised before the body runs. *)
Definition call_connect (args : list string) : M bool :=
  match args with
  | [id_from; id_to] => connect id_from id_to
  | _ => raise (TypeError "connect() takes 3 positional arguments")
  end.

(** [send_msg]: what it leaves in the registry, the lines it prints, and
    how it ends. *)
Definition send_msg (id_from id_to msg : string)
  : Peer → Peer * list string * (exn + unit) :=
  λ self,
    if String.eqb id_from id_to
    then (self, [], inl (Exception "Cannot send message to self"))
    else match call_connect [id_from; id_to; msg] self with
         | (self', inr true) =>
             (self', ["Sent from " +:+ id_from +:+ " to " +:+ id_to +:+ ": " +:+ msg], inr tt)
         | (self', inr false) => (self', [], inr tt)
         | (self', inl e) => (self', [], inl e)
         end.

(** ** Sequences of registry operations *)

Inductive op : Type :=
  | SetOnline (id : string)
  | SetOffline (id : string)
  | Connect (id_from id_to : string).

(** The registry after one call; a raised exception is caught by the caller
    and the registry stays as the raise left it. *)
Definition step (self : Peer) (o : op) : Peer :=
  match o with
  | SetOnline id => fst (set_online id self)
  | SetOffline id => fst (set_offline id self)
  | Connect a b => fst (connect a b self)
  end.

Definition run (ops : list op) (self : Peer) : Peer := fold_left step ops self.

(** Membership in a peer's connected set; an id that is not online has none. *)
Definition is_connected (a b : string) (self : Peer) : Prop :=
  ∃ e, PyDict.get a (_peers self) = Some e ∧ b ∈ connected e.

(** ** The shared instance

    [Cache_Singleton] keeps the instance in the class attribute [_instance];
    objects live in a heap and are told apart by their address. *)

Definition loc := nat.

(** A heap cell is [None] between [object.__new__] and [__init__], when the
    object has no attributes yet. *)
Record World : Type := MkWorld {
  _instance : option loc;
  heap : gmap loc (option Peer)
}.

(** [Cache_Singleton.__new__]; [nargs] counts the positional and keyword
    arguments it passes on.  [object.__new__] refuses extra arguments when
    [__new__] is overridden, as it is here. *)
Definition Cache_Singleton_new (nargs : nat) (w : World) : World * (exn + loc) :=
  match _instance w with
  | Some l => (w, inr l)
  | None =>
      match nargs with
      | O => let l := fresh (dom (heap w)) in
             (MkWorld (Some l) (<[l := None]> (heap w)), inr l)
      | S _ => (w, inl (TypeError
                 "object.__new__() takes exactly one argument (the type to instantiate)"))
      end
  end.

(** [Peer.__init__(self, N=1024)] on the object at [l]. *)
Definition Peer_init (l : loc) (arg : option Z) (w : World) : World :=
  MkWorld (_instance w) (<[l := Some (init (default 1024 arg))]> (heap w)).

(** The call [Peer()] or [Peer(n)]: [__new__], then [__init__] on what it
    returned, with the same arguments. *)
Definition Peer_call (arg : option Z) (w : World) : World * (exn + loc) :=
  match Cache_Singleton_new (match arg with Some _ => 1 | None => 0 end) w with
  | (w', inr l) => (Peer_init l arg w', inr l)
  | (w', inl e) => (w', inl e)
  end.

(** A method call on the object at [l]. *)
Definition on {A} (l : loc) (m : M A) (w : World) : World * (exn + A) :=
  match heap w !! l with
  | Some (Some self) =>
      let '(self', r) := m self in
      (MkWorld (_instance w) (<[l := Some self']> (heap w)), r)
  | _ => (w, inl (AttributeError "_peers"))
  end.

(** The interpreter at start-up: no instance yet, nothing allocated. *)
Definition boot : World := MkWorld None ∅.

(** ** Registries used in the statements below *)

(** [P] holds of every entry of the registry. *)
Definition every (P : entry → Prop) (self : Peer) : Prop :=
  Forall (λ kv : string * entry, P kv.2) (_peers self).

(** Every connected set of the registry is empty. *)
Definition all_empty (self : Peer) : Prop := every (λ e, connected e = ∅) self.

(** Every connected set of the registry has at most [N - 1] members. *)
Definition degree_bounded (self : Peer) : Prop :=
  every (λ e, len (connected e) ≤ N self - 1) self.

(** [b] is in the connected set of [a] exactly when [a] is in that of [b]. *)
Definition symmetric (self : Peer) : Prop :=
  ∀ a b, is_connected a b self ↔ is_connected b a self.

(** The call [o] on [self] ends without raising. *)
Definition returns (self : Peer) (o : op) : Prop :=
  match o with
  | SetOnline id => (set_online id self).2 = inr tt
  | SetOffline id => (set_offline id self).2 = inr tt
  | Connect a b => ∃ r, (connect a b self).2 = inr r
  end.

(** What [set_offline] does to an entry it visits. *)
Definition without (id : string) (e : entry) : entry := Entry (connected e ∖ {[id]}).

(** The registry the test [test_connect] builds before it connects. *)
Definition two_online : Peer := run [SetOnline "123"; SetOnline "321"] (init 1024).

(** The registry of scenario 1 of the specification once A and B are
    connected: N = 2, three peers online. *)
Definition full_pair : Peer :=
  MkPeer 2 [("A", Entry {["B"]}); ("B", Entry {["A"]}); ("C", Entry ∅)].

(** Two peers that are connected to each other. *)
Definition linked_pair : Peer :=
  MkPeer 1024 [("A", Entry {["B"]}); ("B", Entry {["A"]})].

(** The first construction, then two peers going online. *)
Definition busy_world : World :=
  let '(w, _) := Peer_call None boot in
  let '(w, _) := on 0%nat (set_online "123") w in
  let '(w, _) := on 0%nat (set_online "321") w in w.

(** ** Graph_BFS *)

(** [self.graph] is a [defaultdict(list)]; the node identifiers of [BFS]
    index the visited table, so they are integers. *)
Module Graph_BFS.

(** [self.graph[k]]: a missing key is first inserted with an empty list. *)
Definition getitem (k : Z) (g : gmap Z (list Z)) : gmap Z (list Z) * list Z :=
  match g !! k with
  | Some l => (g, l)
  | None => (<[k := []]> g, [])
  end.

(** [self.graph[u].append(v)] *)
Definition addEdge (u v : Z) (g : gmap Z (list Z)) : gmap Z (list Z) :=
  let '(g', l) := getitem u g in <[u := l ++ [v]]> g'.

(** The position a Python list of length [n] gives to index [i]: negative
    indices count from the end, anything else is out of range. *)
Definition py_index (n : nat) (i : Z) : option nat :=
  if (0 <=? i) && (i <? Z.of_nat n) then Some (Z.to_nat i)
  else if (- Z.of_nat n <=? i) && (i <? 0) then Some (Z.to_nat (Z.of_nat n + i))
  else None.

(** [l[i]] *)
Definition list_getitem {A} (l : list A) (i : Z) : exn + A :=
  match py_index (length l) i ≫= (l !!.) with
  | Some x => inr x
  | None => inl (IndexError "list index out of range")
  end.

(** [l[i] = x] *)
Definition list_setitem {A} (l : list A) (i : Z) (x : A) : exn + list A :=
  match py_index (length l) i with
  | Some j => inr (<[j := x]> l)
  | None => inl (IndexError "list assignment index out of range")
  end.

(** The [for i in self.graph[s]] loop: the neighbours not yet marked are
    appended to the queue and marked. *)
Fixpoint visit_adjacent (adj : list Z) (visited : list bool) (queue : list Z)
  : exn + (list bool * list Z) :=
  match adj with
  | [] => inr (visited, queue)
  | i :: adj' =>
      match list_getitem visited i with
      | inl e => inl e
      | inr seen =>
          if Bool.eqb seen false then
            let queue' := queue ++ [i] in
            match list_setitem visited i true with
            | inl e => inl e
            | inr visited' => visit_adjacent adj' visited' queue'
            end
          else visit_adjacent adj' visited queue
      end
  end.

(** What a call leaves behind: the graph (the defaultdict may have grown),
    the nodes printed so far, and how the call ended. *)
Definition result : Type := gmap Z (list Z) * list Z * (exn + unit).

(** The [while queue] loop; [fuel] bounds the number of nodes dequeued and
    [None] means the bound was too small. *)
Fixpoint bfs_while (fuel : nat) (g : gmap Z (list Z)) (visited : list bool)
    (queue : list Z) (out : list Z) : option result :=
  match queue with
  | [] => Some (g, out, inr tt)
  | s :: queue' =>
      match fuel with
      | O => None
      | S fuel' =>
          let out' := out ++ [s] in
          let '(g', adj) := getitem s g in
          match visit_adjacent adj visited queue' with
          | inl e => Some (g', out', inl e)
          | inr (visited', queue'') => bfs_while fuel' g' visited' queue'' out'
          end
      end
  end.

(** [BFS(s)].  Every node dequeued was marked when it was enqueued, and a
    table of [len(self.graph)] slots can be marked that many times. *)
Definition BFS (s : Z) (g : gmap Z (list Z)) : option result :=
  let visited := replicate (size g) false in
  let queue := [s] in
  match list_setitem visited s true with
  | inl e => Some (g, [], inl e)
  | inr visited' => bfs_while (size g) g visited' queue []
  end.

(** The adjacency list of a node; a node without a key has none. *)
Definition adj (g : gmap Z (list Z)) (u : Z) : list Z := default [] (g !! u).

Definition edge (g : gmap Z (list Z)) (u v : Z) : Prop := v ∈ adj g u.

(** [v] is reachable from [s] along edges of [g]. *)
Definition reachable (g : gmap Z (list Z)) (s v : Z) : Prop := rtc (edge g) s v.

(** The traversal property: the call ends normally, having printed [s]
    first and then exactly the nodes reachable from [s], each once. *)
Definition traverses (g : gmap Z (list Z)) (s : Z) : Prop :=
  ∃ g' out, BFS s g = Some (g', out, inr tt) ∧
            head out = Some s ∧ NoDup out ∧
            ∀ v, v ∈ out ↔ reachable g s v.

(** The graph of the usage note under the class. *)
Definition example : gmap Z (list Z) :=
  addEdge 3 3 (addEdge 2 3 (addEdge 2 0 (addEdge 1 2 (addEdge 0 2 (addEdge 0 1 ∅))))).

(** A graph whose two nodes are not numbered from zero. *)
Definition sparse : gmap Z (list Z) := addEdge 20 10 (addEdge 10 20 ∅).

(** Every node named in [g] is an index of a table of [len(g)] slots. *)
Definition dense (g : gmap Z (list Z)) : bool :=
  forallb (λ kv : Z * list Z,
             forallb (λ v, (0 <=? v) && (v <? Z.of_nat (size g))) (kv.1 :: kv.2))
          (map_to_list g).

(** The number of unmarked slots of the visited table. *)
Fixpoint unvisited (l : list bool) : nat :=
  match l with
  | [] => 0
  | b :: l' => (if b then 0 else 1) + unvisited l'
  end.

(** What holds each time the [while] test is reached, in a call on the
    graph [g0] from the source [s0] with a table of [n] slots. *)
Record loop_inv (g0 : gmap Z (list Z)) (s0 : Z) (n : nat)
    (g : gmap Z (list Z)) (visited : list bool) (queue out : list Z) : Prop := {
  inv_adj : ∀ u, adj g u = adj g0 u;
  inv_len : length visited = n;
  inv_mark : ∀ v, 0 ≤ v < Z.of_nat n →
                  visited !! Z.to_nat v = Some true ↔ v ∈ out ++ queue;
  inv_nodup : NoDup (out ++ queue);
  inv_reach : ∀ v, v ∈ out ++ queue → reachable g0 s0 v;
  inv_closed : ∀ u v, u ∈ out → edge g0 u v → v ∈ out ++ queue;
  inv_head : head (out ++ queue) = Some s0
}.
(** The slot a table of [n] slots gives to [v] is marked. *)
Definition marked (n : nat) (visited : list bool) (v : Z) : Prop :=
  ∃ j, py_index n v = Some j ∧ visited !! j = Some true.
End Graph_BFS.

(** ** Graph_Shortest_Path *)

Module Graph_Shortest_Path.

(** The values [find_shortest_path] stores in [dist]: node names and lists
    built from them. *)
#[warnings="-register-all"] Inductive pyval : Type :=
  | PStr (s : string)
  | PList (l : list pyval).

(** [self.graph] is a [defaultdict(list)] or a plain dict, as [__init__]
    chose. *)
Record t : Type := Mk { defaulting : bool; graph : PyDict.t (list string) }.

Definition init (d : bool) : t :=
  if d then Mk true []
  else Mk false [("A", ["B"; "C"]); ("B", ["C"; "D"]); ("C", ["D"]);
                 ("D", ["C"]); ("E", ["F"]); ("F", ["C"])].

(** [self.graph[k]] *)
Definition getitem (k : string) (self : t) : t * (exn + list string) :=
  match PyDict.get k (graph self) with
  | Some l => (self, inr l)
  | None =>
      if defaulting self
      then (Mk true (PyDict.set k [] (graph self)), inr [])
      else (self, inl (KeyError k))
  end.

(** Iterating over a string gives its characters, each a string. *)
Fixpoint chars (s : string) : list string :=
  match s with
  | EmptyString => []
  | String c s' => String c EmptyString :: chars s'
  end.

(** [collections.deque(start)], for reference: the queue starts with the
    items of the iterable [start]. *)
Definition collections_deque (start : string) : list string := chars start.

(** The [for next in self.graph[at]] loop. *)
Fixpoint relax (at_ : string) (adj : list string)
    (dist : PyDict.t pyval) (q : list string)
  : exn + (PyDict.t pyval * list string) :=
  match adj with
  | [] => inr (dist, q)
  | next :: adj' =>
      if negb (PyDict.contains next dist) then
        match PyDict.get at_ dist with
        | None => inl (KeyError at_)
        | Some p =>
            relax at_ adj' (PyDict.set next (PList [p; PStr next]) dist) (q ++ [next])
        end
      else relax at_ adj' dist q
  end.

(** The [while len(q)] loop; [None] when [fuel] iterations were not
    enough. *)
Fixpoint while_q (fuel : nat) (self : t) (dist : PyDict.t pyval) (q : list string)
  : option (t * (exn + PyDict.t pyval)) :=
  match q with
  | [] => Some (self, inr dist)
  | at_ :: q' =>
      match fuel with
      | O => None
      | S fuel' =>
          match getitem at_ self with
          | (self', inl e) => Some (self', inl e)
          | (self', inr adj) =>
              match relax at_ adj dist q' with
              | inl e => Some (self', inl e)
              | inr (dist', q'') => while_q fuel' self' dist' q''
              end
          end
      end
  end.

Section Globals.
(** What the global name [deque] is bound to when the method runs, if
    it is bound at all. *)
Variable deque : option (string → list string).

Definition find_shortest_path (fuel : nat) (start end_ : string) (self : t)
  : option (t * (exn + option pyval)) :=
  let dist := [(start, PList [PStr start])] in
  match deque with
  | None => Some (self, inl (NameError "deque"))
  | Some new_deque =>
      match while_q fuel self dist (new_deque start) with
      | None => None
      | Some (self', inl e) => Some (self', inl e)
      | Some (self', inr dist') => Some (self', inr (PyDict.get end_ dist'))
      end
  end.
End Globals.

(** The module imports [unittest] and [defaultdict] and defines four
    classes; nothing binds [deque]. *)
Definition module_deque : option (string → list string) := None.
Section OtherGlobals.
(** What a dict offers under the attribute [has_key], and what the global
    names [find_all_paths] and [find_shortest_path] are bound to when the
    methods run, if anything. *)
Variable has_key : option (PyDict.t (list string) → string → bool).
Variable global_find_all_paths :
  option (PyDict.t (list string) → string → string → list string →
          exn + list (list string)).
Variable global_find_shortest_path :
  option (t → string → string → list string → exn + option (list string)).

(** The [for node in self.graph[start]] loop of [find_all_paths]. *)
Fixpoint collect_paths (self : t) (adj : list string) (end_ : string)
    (path : list string) (paths : list (list string)) : exn + list (list string) :=
  match adj with
  | [] => inr paths
  | node :: adj' =>
      if negb (bool_decide (node ∈ path)) then
        match global_find_all_paths with
        | None => inl (NameError "find_all_paths")
        | Some f =>
            match f (graph self) node end_ path with
            | inl e => inl e
            | inr newpaths => collect_paths self adj' end_ path (paths ++ newpaths)
            end
        end
      else collect_paths self adj' end_ path paths
  end.

Definition find_all_paths (start end_ : string) (path : list string) (self : t)
  : t * (exn + list (list string)) :=
  let path := path ++ [start] in
  if String.eqb start end_ then (self, inr [path])
  else
    match has_key with
    | None => (self, inl (AttributeError "has_key"))
    | Some has =>
        if negb (has (graph self) start) then (self, inr [])
        else
          match getitem start self with
          | (self', inl e) => (self', inl e)
          | (self', inr adj) => (self', collect_paths self' adj end_ path [])
          end
    end.

(** [if newpath: if not shortest or len(newpath) < len(shortest):
    shortest = newpath]; [None] and the empty list are false. *)
Definition shorter_of (newpath shortest : option (list string))
  : option (list string) :=
  match newpath with
  | Some (x :: p) =>
      match shortest with
      | Some (y :: q) =>
          if (length (x :: p) <? length (y :: q))%nat then newpath else shortest
      | _ => newpath
      end
  | _ => shortest
  end.

(** The [for node in self.graph[start]] loop of
    [find_shortest_path_exponential]. *)
Fixpoint pick_shortest (self : t) (adj : list string) (end_ : string)
    (path : list string) (shortest : option (list string))
  : exn + option (list string) :=
  match adj with
  | [] => inr shortest
  | node :: adj' =>
      if negb (bool_decide (node ∈ path)) then
        match global_find_shortest_path with
        | None => inl (NameError "find_shortest_path")
        | Some f =>
            match f self node end_ path with
            | inl e => inl e
            | inr newpath =>
                pick_shortest self adj' end_ path (shorter_of newpath shortest)
            end
        end
      else pick_shortest self adj' end_ path shortest
  end.

Definition find_shortest_path_exponential (start end_ : string)
    (path : list string) (self : t) : t * (exn + option (list string)) :=
  let path := path ++ [start] in
  if String.eqb start end_ then (self, inr (Some path))
  else if negb (PyDict.contains start (graph self)) then (self, inr None)
  else
    match getitem start self with
    | (self', inl e) => (self', inl e)
    | (self', inr adj) => (self', pick_shortest self' adj end_ path None)
    end.
End OtherGlobals.

(** Python 3 dicts and defaultdicts have no [has_key]. *)
Definition dict_has_key : option (PyDict.t (list string) → string → bool) := None.

(** [find_all_paths] and [find_shortest_path] are attributes of the class;
    the module binds no global of either name. *)
Definition module_find_all_paths :
  option (PyDict.t (list string) → string → string → list string →
          exn + list (list string)) := None.
Definition module_find_shortest_path :
  option (t → string → string → list string → exn + option (list string)) := None.
End Graph_Shortest_Path.


(** * Facts about the registry *)

Module PyDictFacts.
Import PyDict.
Section Facts.
Context {V : Type}.
Implicit Types (d : PyDict.t V) (k : string) (v : V).

Lemma contains_get k d : contains k d = true ↔ is_Some (get k d).
Proof.
  unfold contains. destruct (get k d); split; intros H; try done.
  all: by (eauto || destruct H).
Qed.

Lemma contains_false k d : contains k d = false ↔ get k d = None.
Proof. unfold contains. by destruct (get k d). Qed.

Lemma get_set_eq k v d : get k (set k v d) = Some v.
Proof.
  induction d as [|[k' v'] d IH]; simpl.
  - by rewrite String.eqb_refl.
  - destruct (String.eqb k k') eqn:E; simpl; rewrite E; [done | apply IH].
Qed.

Lemma get_set_ne k k' v d : k ≠ k' → get k' (set k v d) = get k' d.
Proof.
  intros Hne. induction d as [|[k0 v0] d IH]; simpl.
  - destruct (String.eqb_spec k' k); congruence.
  - destruct (String.eqb_spec k k0) as [->|]; simpl.
    + destruct (String.eqb_spec k' k0); congruence.
    + by rewrite IH.
Qed.

Lemma get_not_key k d : k ∉ keys d → get k d = None.
Proof.
  induction d as [|[k' v'] d IH]; simpl; [done|].
  intros [Hne Hnotin]%not_elem_of_cons.
  destruct (String.eqb_spec k k'); [done | by apply IH].
Qed.

Lemma get_pop_eq k d : NoDup (keys d) → get k (pop k d) = None.
Proof.
  induction d as [|[k' v'] d IH]; simpl; [done|].
  intros [Hnotin Hnd]%NoDup_cons.
  destruct (String.eqb_spec k k') as [->|Hne]; simpl.
  - by apply get_not_key.
  - destruct (String.eqb_spec k k'); [done | by apply IH].
Qed.

Lemma get_pop_ne k k' d : k ≠ k' → get k' (pop k d) = get k' d.
Proof.
  intros Hne. induction d as [|[k0 v0] d IH]; simpl; [done|].
  destruct (String.eqb_spec k k0) as [->|]; simpl.
  - by destruct (String.eqb_spec k' k0).
  - by rewrite IH.
Qed.

Lemma Forall_set (P : string * V → Prop) k v d :
  (∀ k', P (k', v)) → Forall P d → Forall P (set k v d).
Proof.
  intros Hv. induction 1 as [|[k' v'] d Hx Hd IH]; simpl.
  - by repeat constructor.
  - destruct (String.eqb k k'); constructor; auto.
Qed.

Lemma Forall_pop (P : string * V → Prop) k d :
  Forall P d → Forall P (pop k d).
Proof.
  induction 1 as [|[k' v'] d Hx Hd IH]; simpl; [done|].
  destruct (String.eqb k k'); [done | by constructor].
Qed.

Lemma Forall_get (P : string * V → Prop) k v d :
  (∀ k1 k2, P (k1, v) → P (k2, v)) →
  Forall P d → get k d = Some v → P (k, v).
Proof.
  intros Hk. induction 1 as [|[k' v'] d Hx Hd IH]; simpl; [done|].
  destruct (String.eqb k k'); [|done].
  intros [= ->]. eauto.
Qed.
End Facts.
End PyDictFacts.

Import PyDictFacts.

Lemma every_get (P : entry → Prop) k e self :
  every P self → PyDict.get k (_peers self) = Some e → P e.
Proof.
  intros Hd Hk. by apply (Forall_get (λ kv : string * entry, P kv.2) k e (_peers self)).
Qed.

Section RegistryFacts.
Implicit Types (self : Peer) (id a b : string).

Lemma isonline_get id self : isonline id self = true ↔ is_Some (PyDict.get id (_peers self)).
Proof.
  unfold isonline. rewrite <- contains_get.
  by destruct (PyDict.contains id (_peers self)).
Qed.

Lemma isonline_false id self : isonline id self = false ↔ PyDict.get id (_peers self) = None.
Proof.
  unfold isonline. rewrite <- contains_false.
  by destruct (PyDict.contains id (_peers self)).
Qed.

(** [connect] never changes the registry: every path either returns
    before the first [append] or raises in it. *)
Lemma connect_registry_unchanged a b self : (connect a b self).1 = self.
Proof.
  unfold connect. destruct (String.eqb a b); [done|].
  destruct (_ && _); [|done].
  unfold connected_of, append_connected, set_append, mbind, M_bind, mret, M_ret, raise.
  destruct (PyDict.get a (_peers self)) as [ea|] eqn:Ha; [|done].
  destruct (decide _); [done|].
  destruct (PyDict.get b (_peers self)) as [eb|]; [|done].
  destruct (_ && _); [|done].
  by rewrite Ha.
Qed.

(** What [connect] does when both ids are online and distinct. *)
Lemma connect_online a b self ea eb :
  a ≠ b →
  PyDict.get a (_peers self) = Some ea →
  PyDict.get b (_peers self) = Some eb →
  connect a b self =
    (self,
     if decide (b ∈ connected ea) then inr true
     else if (len (connected ea) <? N self - 1) && (len (connected eb) <? N self - 1)
          then inl (AttributeError "'set' object has no attribute 'append'")
          else inl (too_many (N self))).
Proof.
  intros Hne Ha Hb. unfold connect.
  destruct (String.eqb_spec a b); [done|].
  unfold PyDict.contains, connected_of, append_connected, set_append,
    mbind, M_bind, mret, M_ret, raise.
  rewrite Ha, Hb. simpl.
  destruct (decide _); [done|].
  rewrite Hb. destruct (_ && _); [|done].
  by rewrite Ha.
Qed.

(** Where an edge would have to be added, [connect] raises and adds
    nothing. *)
Lemma connect_never_adds_edge a b self ea eb :
  a ≠ b →
  PyDict.get a (_peers self) = Some ea →
  PyDict.get b (_peers self) = Some eb →
  b ∉ connected ea →
  len (connected ea) < N self - 1 →
  len (connected eb) < N self - 1 →
  connect a b self =
    (self, inl (AttributeError "'set' object has no attribute 'append'")).
Proof.
  intros Hne Ha Hb Hnot Hda Hdb.
  rewrite (connect_online a b self ea eb) by done.
  rewrite decide_False by done.
  by destruct (Z.ltb_spec (len (connected ea)) (N self - 1)),
              (Z.ltb_spec (len (connected eb)) (N self - 1)); try lia.
Qed.

(** Properties of the entries that new entries have and that removing a
    member keeps are kept by every call, whether it succeeds or raises. *)
Section Preserved.
Variable P : entry → Prop.
Hypothesis P_fresh : P fresh_entry.
Hypothesis P_remove : ∀ id s, P (Entry s) → P (Entry (s ∖ {[id]})).

Lemma set_online_every id self : every P self → every P (set_online id self).1.
Proof.
  unfold set_online, every. intros H.
  destruct (negb _); simpl; [|done].
  by apply Forall_set.
Qed.

Lemma remove_from_all_every id ks (d : PyDict.t entry) :
  Forall (λ kv : string * entry, P kv.2) d →
  Forall (λ kv : string * entry, P kv.2) (remove_from_all id ks d).1.
Proof.
  revert d. induction ks as [|k ks IH]; intros d Hd; simpl; [done|].
  destruct (PyDict.get k d) as [[s]|] eqn:Hk; [|done].
  unfold set_remove. simpl. destruct (decide (id ∈ s)) as [Hin|]; simpl; [|done].
  apply IH, Forall_set; [|done]. intros ?. simpl. apply P_remove.
  by apply (Forall_get (λ kv : string * entry, P kv.2) k (Entry s) d).
Qed.

Lemma set_offline_every id self : every P self → every P (set_offline id self).1.
Proof.
  unfold set_offline, every. intros H.
  destruct (PyDict.contains _ _); [|done].
  pose proof (remove_from_all_every id
    (PyDict.keys (PyDict.pop id (_peers self))) (PyDict.pop id (_peers self))
    (Forall_pop _ id _ H)) as H'.
  by destruct (remove_from_all _ _ _).
Qed.

Lemma step_every self o : every P self → every P (step self o).
Proof.
  destruct o; simpl.
  - apply set_online_every.
  - apply set_offline_every.
  - by rewrite connect_registry_unchanged.
Qed.

Lemma run_every ops self : every P self → every P (run ops self).
Proof.
  revert self. induction ops as [|o ops IH]; intros self H; simpl; [done|].
  apply IH, step_every, H.
Qed.
End Preserved.

(** With no edges in the registry, taking a peer offline raises as soon
    as any other peer is online. *)
Lemma set_offline_raises id other self :
  all_empty self →
  isonline id self = true →
  other ≠ id →
  isonline other self = true →
  (set_offline id self).2 = inl (KeyError id).
Proof.
  unfold set_offline, all_empty, every, isonline.
  intros Hempty Hid Hne Hother.
  destruct (PyDict.contains id (_peers self)); [|done].
  assert (PyDict.get other (PyDict.pop id (_peers self)) ≠ None) as Hleft.
  { rewrite get_pop_ne by done.
    unfold PyDict.contains in Hother. by destruct (PyDict.get other (_peers self)). }
  apply (Forall_pop _ id) in Hempty.
  destruct (PyDict.pop id (_peers self)) as [|[k e] d]; [done|].
  simpl. rewrite String.eqb_refl. unfold set_remove.
  apply Forall_cons in Hempty as [Hk _]. simpl in Hk.
  rewrite Hk. by rewrite decide_False by set_solver.
Qed.

Lemma run_all_empty ops self : all_empty self → all_empty (run ops self).
Proof. apply run_every; [done | simpl; intros id s ->; set_solver]. Qed.

Lemma step_N self o : N (step self o) = N self.
Proof.
  destruct o; simpl.
  - unfold set_online. by destruct (negb _).
  - unfold set_offline. destruct (PyDict.contains _ _); [|done].
    by destruct (remove_from_all _ _ _).
  - by rewrite connect_registry_unchanged.
Qed.

Lemma run_N ops self : N (run ops self) = N self.
Proof.
  revert self. induction ops as [|o ops IH]; intros self; simpl; [done|].
  by rewrite IH, step_N.
Qed.

Lemma run_degree_bounded ops self :
  1 ≤ N self → degree_bounded self → degree_bounded (run ops self).
Proof.
  intros Hn. unfold degree_bounded. rewrite run_N.
  apply run_every; simpl.
  - unfold len. rewrite size_empty. lia.
  - intros id s Hs. unfold len in *.
    assert (size (s ∖ {[id]}) ≤ size s)%nat by (apply subseteq_size; set_solver).
    lia.
Qed.

Lemma init_all_empty n : all_empty (init n).
Proof. constructor. Qed.

Lemma all_empty_not_connected a b self : all_empty self → ¬ is_connected a b self.
Proof.
  intros H (e & Hget & Hin).
  apply (every_get _ _ _ _ H) in Hget.
  rewrite Hget in Hin. set_solver.
Qed.
End RegistryFacts.

(** ** Calls that return keep a symmetric registry symmetric

    This also covers registries that hold edges, which no sequence of calls
    builds. *)

Lemma get_key {V} k (v : V) (d : PyDict.t V) : PyDict.get k d = Some v → k ∈ PyDict.keys d.
Proof.
  induction d as [|[k' v'] d IH]; simpl; [done|].
  destruct (String.eqb_spec k k') as [->|]; [set_solver|].
  intros H. apply elem_of_cons. right. by apply IH.
Qed.

(** When the loop of [set_offline] runs to its end it has stripped [id]
    from every entry it went through. *)
Lemma remove_from_all_returns id ks (d d' : PyDict.t entry) :
  remove_from_all id ks d = (d', inr tt) →
  ∀ k, PyDict.get k d' =
       if decide (k ∈ ks) then without id <$> PyDict.get k d else PyDict.get k d.
Proof.
  revert d. induction ks as [|k0 ks IH]; intros d Hrun k; simpl in Hrun.
  - injection Hrun as <-. by rewrite decide_False by set_solver.
  - destruct (PyDict.get k0 d) as [e0|] eqn:H0; [|done].
    unfold set_remove in Hrun. destruct (decide (id ∈ connected e0)); [|done].
    rewrite (IH _ Hrun k). destruct (decide (k = k0)) as [->|Hne].
    + rewrite get_set_eq, H0, (decide_True (P := k0 ∈ k0 :: ks)) by set_solver.
      destruct (decide (k0 ∈ ks)); simpl; [|done].
      unfold without. simpl. do 2 f_equal. set_solver.
    + rewrite get_set_ne by done.
      destruct (decide (k ∈ ks)).
      * by rewrite decide_True by set_solver.
      * by rewrite decide_False by set_solver.
Qed.

Lemma set_offline_returns id self self' :
  NoDup (PyDict.keys (_peers self)) →
  isonline id self = true →
  set_offline id self = (self', inr tt) →
  ∀ k, PyDict.get k (_peers self') =
       if decide (k = id) then None else without id <$> PyDict.get k (_peers self).
Proof.
  unfold set_offline, isonline. intros Hnd Hon Hrun k.
  destruct (PyDict.contains id (_peers self)); [|done].
  destruct (remove_from_all _ _ _) as [d' r] eqn:Hloop.
  injection Hrun as <- ->. simpl.
  rewrite (remove_from_all_returns _ _ _ _ Hloop k).
  destruct (decide (k = id)) as [->|Hne].
  - rewrite get_pop_eq by done. by destruct (decide _).
  - rewrite !get_pop_ne by congruence.
    destruct (decide _) as [|Hnotin]; [done|].
    destruct (PyDict.get k (_peers self)) as [e|] eqn:Hk; [|done].
    exfalso. apply Hnotin. apply (get_key k e). by rewrite get_pop_ne by congruence.
Qed.

Lemma returning_step_symmetric self o :
  NoDup (PyDict.keys (_peers self)) →
  symmetric self → returns self o → symmetric (step self o).
Proof.
  intros Hnd Hsym Hret. destruct o as [id|id|a b]; simpl in *.
  - unfold set_online in *.
    destruct (PyDict.contains id (_peers self)) eqn:Hid; simpl; [done|].
    apply contains_false in Hid.
    assert (∀ a b, is_connected a b
              (MkPeer (N self) (PyDict.set id fresh_entry (_peers self)))
            ↔ is_connected a b self) as Hsame.
    { intros a b. unfold is_connected. simpl.
      destruct (decide (id = a)) as [->|Hne].
      - rewrite get_set_eq, Hid. split; intros (e & He & Hin); [|done].
        injection He as <-. set_solver.
      - by rewrite get_set_ne. }
    intros a b. by rewrite !Hsame.
  - destruct (isonline id self) eqn:Hon.
    + destruct (set_offline id self) as [self' r] eqn:Hrun. simpl in *. subst r.
      pose proof (set_offline_returns id self self' Hnd Hon Hrun) as Hget.
      assert (∀ a b, is_connected a b self' ↔
                     a ≠ id ∧ b ≠ id ∧ is_connected a b self) as Hsame.
      { intros a b. unfold is_connected. rewrite Hget.
        destruct (decide (a = id)) as [->|Hne].
        - split; [by intros (e & ? & _) | by intros (? & _)].
        - destruct (PyDict.get a (_peers self)) as [e|]; simpl.
          + split.
            * intros (e' & [= <-] & Hin). unfold without in Hin. simpl in Hin.
              split_and!; [done | set_solver | exists e; set_solver].
            * intros (_ & Hb & e' & [= <-] & Hin).
              exists (without id e). unfold without. simpl. set_solver.
          + split; [by intros (e & ? & _) | by intros (_ & _ & e & ? & _)]. }
      intros a b. rewrite !Hsame, (Hsym a b). tauto.
    + unfold set_offline, isonline in *.
      by destruct (PyDict.contains id (_peers self)).
  - by rewrite connect_registry_unchanged.
Qed.

Lemma linked_pair_symmetric : symmetric linked_pair.
Proof.
  assert (∀ a b, is_connected a b linked_pair → is_connected b a linked_pair) as H.
  { intros a b (e & He & Hin). unfold is_connected. simpl in *.
    destruct (String.eqb_spec a "A") as [->|_].
    - injection He as <-. simpl in Hin. apply elem_of_singleton in Hin as ->.
      eexists. split; [reflexivity|]. set_solver.
    - destruct (String.eqb_spec a "B") as [->|_]; [|done].
      injection He as <-. simpl in Hin. apply elem_of_singleton in Hin as ->.
      eexists. split; [reflexivity|]. set_solver. }
  intros a b. split; apply H.
Qed.

(** ** The shared instance *)

Lemma first_construction (w : World) :
  _instance w = None →
  ∃ l, heap w !! l = None ∧
       Peer_call None w =
         (MkWorld (Some l) (<[l := Some (init 1024)]> (heap w)), inr l).
Proof.
  intros Hnone. exists (fresh (dom (heap w))). split.
  - apply not_elem_of_dom, is_fresh.
  - unfold Peer_call, Cache_Singleton_new, Peer_init. rewrite Hnone. simpl.
    by rewrite insert_insert_eq.
Qed.

(** [object.__new__] takes no arguments here, so the first construction
    must be [Peer()]. *)
Lemma first_construction_with_argument (w : World) (n : Z) :
  _instance w = None →
  ∃ msg, Peer_call (Some n) w = (w, inl (TypeError msg)).
Proof.
  intros Hnone. unfold Peer_call, Cache_Singleton_new. rewrite Hnone. by eexists.
Qed.

Lemma on_instance {A} (l : loc) (m : M A) (w : World) :
  _instance (on l m w).1 = _instance w.
Proof.
  unfold on. destruct (heap w !! l) as [[self|]|]; try done.
  by destruct (m self).
Qed.

(** * The claims about the registry *)

(** C1.  [connect] on two online, distinct, unconnected peers below the
    degree cap is expected to add the edge on both sides and return True
    ([test_connect] asserts it).  On the registry of that test the call
    raises AttributeError instead, out of the first [append], and the
    registry is left as it was: no edge is added. *)
Theorem connect_raises_on_fresh_pair :
  isonline "123" two_online = true ∧ isonline "321" two_online = true ∧
  ¬ is_connected "123" "321" two_online ∧
  num_connected "123" two_online = (two_online, inr 0) ∧
  num_connected "321" two_online = (two_online, inr 0) ∧
  connect "123" "321" two_online =
    (two_online, inl (AttributeError "'set' object has no attribute 'append'")).
Proof.
  repeat split; try reflexivity.
  apply all_empty_not_connected, run_all_empty, init_all_empty.
Qed.

(** C2.  Symmetry: after any sequence of [set_online], [set_offline] and
    [connect] calls on a newly initialised registry, whether or not each
    call succeeded, [b] is in the connected set of [a] exactly when [a] is
    in the connected set of [b]; and on any symmetric registry, with or
    without edges, a call that returns leaves a symmetric registry. *)
Theorem connected_symmetric :
  (∀ (n : Z) (ops : list op), symmetric (run ops (init n))) ∧
  (∀ (self : Peer) (o : op),
     NoDup (PyDict.keys (_peers self)) →
     symmetric self → returns self o → symmetric (step self o)).
Proof.
  split.
  - intros n ops a b.
    pose proof (run_all_empty ops (init n) (init_all_empty n)) as H.
    split; intros Hc; exfalso; eapply all_empty_not_connected; eauto.
  - apply returning_step_symmetric.
Qed.

Lemma connected_symmetric_witness :
  symmetric (run [SetOnline "A"; SetOnline "B"; Connect "A" "B"; SetOffline "A"] (init 1024)) ∧
  symmetric (step linked_pair (SetOffline "A")).
Proof.
  split.
  - apply (proj1 connected_symmetric).
  - apply (proj2 connected_symmetric linked_pair (SetOffline "A")).
    + simpl. repeat constructor; set_solver.
    + apply linked_pair_symmetric.
    + reflexivity.
Defined.

(** C3.  Degree bound: take a registry with [N >= 1] in which no peer has
    more than [N - 1] connections, a newly initialised one for instance;
    after any sequence of calls on it, every online peer still has at most
    [N - 1] connections.  And on any registry, [connect] on two distinct
    online peers that are not yet connected raises the too-many-connections
    exception as soon as one more edge would take either side above
    [N - 1], leaving the registry as it was. *)
Theorem degree_bounded_and_refused :
  (∀ (self : Peer) (ops : list op) (a : string),
     1 ≤ N self →
     degree_bounded self →
     isonline a (run ops self) = true →
     ∃ d, num_connected a (run ops self) = (run ops self, inr d) ∧
          d ≤ N (run ops self) - 1) ∧
  (∀ (self : Peer) (a b : string) (ea eb : entry),
     a ≠ b →
     PyDict.get a (_peers self) = Some ea →
     PyDict.get b (_peers self) = Some eb →
     b ∉ connected ea →
     (N self - 1 < len (connected ea) + 1 ∨ N self - 1 < len (connected eb) + 1) →
     connect a b self = (self, inl (too_many (N self)))).
Proof.
  split.
  - intros self ops a Hn Hbound [e He]%isonline_get.
    apply (run_degree_bounded ops) in Hbound; [|done].
    unfold num_connected. rewrite He. eexists; split; [done|].
    apply (every_get _ _ _ _ Hbound He).
  - intros self a b ea eb Hne Ha Hb Hnot Hfull.
    rewrite (connect_online a b self ea eb) by done.
    rewrite decide_False by done.
    destruct (Z.ltb_spec (len (connected ea)) (N self - 1));
      destruct (Z.ltb_spec (len (connected eb)) (N self - 1)); simpl; try done.
    lia.
Qed.

Lemma degree_bounded_and_refused_witness :
  (∃ d, num_connected "A" (run [SetOffline "B"; SetOnline "D"; Connect "A" "D"] full_pair)
        = (run [SetOffline "B"; SetOnline "D"; Connect "A" "D"] full_pair, inr d) ∧
        d ≤ N (run [SetOffline "B"; SetOnline "D"; Connect "A" "D"] full_pair) - 1) ∧
  connect "A" "C" full_pair = (full_pair, inl (Exception "Too many connections n > 2")).
Proof.
  split.
  - apply (proj1 degree_bounded_and_refused full_pair); [simpl; lia | | reflexivity].
    repeat constructor; vm_compute; discriminate.
  - apply (proj2 degree_bounded_and_refused full_pair "A" "C" (Entry {["B"]}) (Entry ∅));
      [done | reflexivity | reflexivity | | left; vm_compute; reflexivity].
    simpl. set_solver.
Defined.

(** C4.  [set_offline] is expected never to fail (its handler is there to
    ignore peers that were not connected to [id]).  With a second peer
    online that is not connected to the one going offline, the call raises
    KeyError: [set.remove] does not raise the ValueError the handler
    catches. *)
Theorem set_offline_raises_KeyError :
  set_offline "a" (run [SetOnline "a"; SetOnline "b"] (init 1024)) =
    (MkPeer 1024 [("b", Entry ∅)], inl (KeyError "a")).
Proof. reflexivity. Qed.

(** C5.  NotOnline: for distinct ids, if either is absent from the
    registry, [connect] reports the failure to its caller by returning
    False, without raising and without touching the registry. *)
Theorem connect_not_online (self : Peer) (a b : string) :
  a ≠ b →
  isonline a self = false ∨ isonline b self = false →
  connect a b self = (self, inr false).
Proof.
  intros Hne Hoff. unfold connect.
  destruct (String.eqb_spec a b); [done|].
  rewrite !isonline_false, <- !contains_false in Hoff.
  by destruct Hoff as [-> | ->]; rewrite ?andb_false_r.
Qed.

Lemma connect_not_online_witness :
  connect "123" "321" (run [SetOnline "123"] (init 1024)) =
    (run [SetOnline "123"] (init 1024), inr false).
Proof.
  apply connect_not_online; [done | right; reflexivity].
Defined.

(** C6.  Idempotence: a second [set_online] of the same id changes
    nothing, and whenever [connect] returns True, calling it again at once
    returns True again and leaves the registry as the first call left it. *)
Theorem set_online_connect_idempotent :
  (∀ (self : Peer) (id : string),
     set_online id (set_online id self).1 = ((set_online id self).1, inr tt)) ∧
  (∀ (self self' : Peer) (a b : string),
     connect a b self = (self', inr true) →
     connect a b self' = (self', inr true) ∧ self' = self).
Proof.
  split.
  - intros self id. unfold set_online.
    destruct (PyDict.contains id (_peers self)) eqn:E; simpl.
    + by rewrite E.
    + unfold PyDict.contains at 1. by rewrite get_set_eq.
  - intros self self' a b H.
    pose proof (connect_registry_unchanged a b self) as Hst.
    rewrite H in Hst. simpl in Hst. by subst.
Qed.

Lemma set_online_connect_idempotent_witness :
  set_online "123" (set_online "123" (init 1024)).1 = ((set_online "123" (init 1024)).1, inr tt) ∧
  connect "A" "B" linked_pair = (linked_pair, inr true) ∧ linked_pair = linked_pair.
Proof.
  split.
  - apply (proj1 set_online_connect_idempotent).
  - apply (proj2 set_online_connect_idempotent linked_pair linked_pair "A" "B").
    vm_compute. reflexivity.
Defined.

(** C9.  [send_msg] is expected to deliver when the peers are connected and
    otherwise to fail the way [connect] fails.  It passes [connect] a third
    argument, so every call with distinct ids raises TypeError and prints
    nothing: on a linked pair nothing is sent, and on an empty registry,
    where [connect] itself returns False, [send_msg] raises. *)
Theorem send_msg_raises_TypeError :
  send_msg "A" "B" "hi" linked_pair =
    (linked_pair, [], inl (TypeError "connect() takes 3 positional arguments")) ∧
  connect "A" "B" linked_pair = (linked_pair, inr true) ∧
  send_msg "A" "B" "hi" (init 1024) =
    (init 1024, [], inl (TypeError "connect() takes 3 positional arguments")) ∧
  connect "A" "B" (init 1024) = (init 1024, inr false).
Proof. repeat split; vm_compute; reflexivity. Qed.

(** [send_msg] never gets as far as the body of [connect]. *)
Lemma send_msg_distinct (self : Peer) (a b msg : string) :
  a ≠ b →
  send_msg a b msg self =
    (self, [], inl (TypeError "connect() takes 3 positional arguments")).
Proof.
  intros Hne. unfold send_msg. by destruct (String.eqb_spec a b).
Qed.

(** C10.  Once an instance exists, calling the class again returns that
    same instance, and [__init__] runs on it again: the peer mapping is
    empty again and N is the new argument (1024 when none is given);
    nothing else in the heap changes. *)
Theorem second_construction_resets (w : World) (l : loc) (arg : option Z) :
  _instance w = Some l →
  ∃ w', Peer_call arg w = (w', inr l) ∧
        _instance w' = Some l ∧
        heap w' !! l = Some (Some (MkPeer (default 1024 arg) [])) ∧
        ∀ l', l' ≠ l → heap w' !! l' = heap w !! l'.
Proof.
  intros Hinst. unfold Peer_call, Cache_Singleton_new. rewrite Hinst.
  eexists; split; [done|]. simpl. split; [done|]. split.
  - by rewrite lookup_insert_eq.
  - intros l' Hne. by rewrite lookup_insert_ne.
Qed.

Lemma second_construction_resets_witness :
  (Peer_call None boot).2 = inr 0%nat ∧
  heap busy_world !! 0%nat =
    Some (Some (MkPeer 1024 [("123", Entry ∅); ("321", Entry ∅)])) ∧
  ∃ w', Peer_call (Some 5) busy_world = (w', inr 0%nat) ∧
        _instance w' = Some 0%nat ∧
        heap w' !! 0%nat = Some (Some (MkPeer 5 [])) ∧
        ∀ l', l' ≠ 0%nat → heap w' !! l' = heap busy_world !! l'.
Proof.
  split; [reflexivity|]. split; [reflexivity|].
  apply (second_construction_resets busy_world 0%nat (Some 5)). reflexivity.
Defined.

(** * Facts about the breadth-first traversal *)

Module Graph_BFS_Facts.
Import Graph_BFS.

Lemma py_index_lt n i j : py_index n i = Some j → (j < n)%nat.
Proof.
  unfold py_index. intros H.
  destruct (Z.leb_spec 0 i), (Z.ltb_spec i (Z.of_nat n)); simpl in H;
    try (injection H as <-; lia);
    destruct (Z.leb_spec (- Z.of_nat n) i), (Z.ltb_spec i 0); simpl in H;
    try done; injection H as <-; lia.
Qed.

Lemma py_index_in_range n i :
  0 ≤ i < Z.of_nat n → py_index n i = Some (Z.to_nat i).
Proof.
  intros [H0 Hn]. unfold py_index.
  destruct (Z.leb_spec 0 i); [|lia]. destruct (Z.ltb_spec i (Z.of_nat n)); [done|lia].
Qed.

Lemma unvisited_replicate n : unvisited (replicate n false) = n.
Proof. induction n; simpl; congruence. Qed.

Lemma unvisited_mark (l : list bool) j :
  l !! j = Some false → S (unvisited (<[j := true]> l)) = unvisited l.
Proof.
  revert j. induction l as [|b l IH]; intros [|j] H; simpl in *; try done.
  - by injection H as ->.
  - rewrite <- (IH j H). lia.
Qed.

(** The inner loop keeps the table's length, and each node it enqueues
    uses up one unmarked slot. *)
Lemma visit_adjacent_measure L visited queue visited' queue' :
  visit_adjacent L visited queue = inr (visited', queue') →
  length visited' = length visited ∧
  (length queue' + unvisited visited' = length queue + unvisited visited)%nat.
Proof.
  revert visited queue. induction L as [|i L IH]; intros visited queue H; simpl in H.
  - by injection H as <- <-.
  - unfold list_getitem, list_setitem in H.
    destruct (py_index (length visited) i) as [j|] eqn:Hj; simpl in H; [|done].
    destruct (visited !! j) as [[]|] eqn:Hv; simpl in H; try done.
    + by apply IH in H.
    + apply IH in H as [Hlen Hm].
      rewrite length_insert in Hlen. rewrite length_app in Hm. simpl in Hm.
      pose proof (unvisited_mark visited j Hv). split; [done | lia].
Qed.

Lemma bfs_while_total fuel g visited queue out :
  (length queue + unvisited visited ≤ fuel)%nat →
  is_Some (bfs_while fuel g visited queue out).
Proof.
  revert g visited queue out.
  induction fuel as [|fuel IH]; intros g visited [|s queue] out H; simpl in *;
    try done; try lia.
  destruct (getitem s g) as [g' L].
  destruct (visit_adjacent L visited queue) as [e|[visited' queue']] eqn:Hv; [done|].
  apply visit_adjacent_measure in Hv as [_ Hm]. apply IH. lia.
Qed.

(** [BFS] never runs out of the fuel it gives its loop. *)
Lemma BFS_total s g : is_Some (BFS s g).
Proof.
  unfold BFS, list_setitem. rewrite length_replicate.
  destruct (py_index (size g) s) as [j|] eqn:Hj; [|done].
  apply bfs_while_total. simpl.
  pose proof (unvisited_mark (replicate (size g) false) j) as Hm.
  rewrite lookup_replicate_2 in Hm by (by eapply py_index_lt).
  specialize (Hm eq_refl). rewrite unvisited_replicate in Hm. lia.
Qed.

Lemma getitem_list k g : (getitem k g).2 = adj g k.
Proof. unfold getitem, adj. by destruct (g !! k). Qed.

Lemma getitem_adj k g u : adj (getitem k g).1 u = adj g u.
Proof.
  unfold getitem, adj. destruct (g !! k) eqn:Hk; simpl; [done|].
  destruct (decide (k = u)) as [->|Hne].
  - by rewrite lookup_insert_eq, Hk.
  - by rewrite lookup_insert_ne.
Qed.

(** A set of nodes closed under edges holds whatever is reachable from
    its members. *)
Lemma closed_reachable (g : gmap Z (list Z)) (out : list Z) u v :
  (∀ u v, u ∈ out → edge g u v → v ∈ out) →
  reachable g u v → u ∈ out → v ∈ out.
Proof.
  intros Hclosed Hv. induction Hv as [|u w v Huw _ IH]; [done|].
  intros Hu. eapply IH, Hclosed; eauto.
Qed.

Section Correct.
(** The graph the call starts from, its source, and the size of the
    visited table. *)
Variables (g0 : gmap Z (list Z)) (s0 : Z) (n : nat).
Hypothesis in_range : ∀ v, reachable g0 s0 v → 0 ≤ v < Z.of_nat n.

Lemma visit_adjacent_spec L visited queue pre :
  length visited = n →
  Forall (λ v, 0 ≤ v < Z.of_nat n) L →
  (∀ v, 0 ≤ v < Z.of_nat n →
        visited !! Z.to_nat v = Some true ↔ v ∈ pre ++ queue) →
  NoDup (pre ++ queue) →
  ∃ visited' new,
    visit_adjacent L visited queue = inr (visited', queue ++ new) ∧
    length visited' = n ∧
    (∀ v, 0 ≤ v < Z.of_nat n →
          visited' !! Z.to_nat v = Some true ↔ v ∈ pre ++ queue ++ new) ∧
    NoDup (pre ++ queue ++ new) ∧
    (∀ v, v ∈ new → v ∈ L) ∧
    (∀ v, v ∈ L → v ∈ pre ++ queue ++ new).
Proof.
  revert visited queue.
  induction L as [|i L IH]; intros visited queue Hlen HL Hmark Hnd.
  - exists visited, []. rewrite !app_nil_r. set_solver.
  - apply Forall_cons in HL as [Hi HL]. simpl.
    unfold list_getitem, list_setitem.
    rewrite Hlen, (py_index_in_range n i Hi). simpl.
    destruct (lookup_lt_is_Some_2 visited (Z.to_nat i)) as [b Hb]; [lia|].
    rewrite Hb. destruct b; simpl.
    + destruct (IH visited queue) as (visited' & new & -> & ? & ? & ? & ? & ?);
        try done.
      exists visited', new. split_and!; try done; [set_solver|].
      intros v [->|Hv]%elem_of_cons; [|auto].
      apply (Hmark i Hi) in Hb. set_solver.
    + assert (i ∉ pre ++ queue) as Hfresh.
      { intros Hin%(Hmark i Hi). congruence. }
      destruct (IH (<[Z.to_nat i := true]> visited) (queue ++ [i]))
        as (visited' & new & Hrun & Hlen' & Hmark' & Hnd' & Hsub & Hall).
      * by rewrite length_insert.
      * done.
      * intros v Hv. destruct (decide (v = i)) as [->|Hne].
        -- rewrite list_lookup_insert_eq by lia. set_solver.
        -- rewrite list_lookup_insert_ne by lia. rewrite (Hmark v Hv). set_solver.
      * rewrite app_assoc. apply NoDup_app. split; [done|].
        split; [set_solver | apply NoDup_singleton].
      * exists visited', (i :: new). rewrite Hrun.
        rewrite <- !app_assoc in *. simpl in *.
        split_and!; try done; set_solver.
Qed.

Lemma bfs_while_spec fuel g visited queue out r :
  loop_inv g0 s0 n g visited queue out →
  bfs_while fuel g visited queue out = Some r →
  ∃ g' out', r = (g', out', inr tt) ∧
             head out' = Some s0 ∧ NoDup out' ∧
             ∀ v, v ∈ out' ↔ reachable g0 s0 v.
Proof.
  revert g visited queue out.
  induction fuel as [|fuel IH]; intros g visited [|s queue] out Inv Hrun;
    simpl in Hrun; try done.
  1,2: injection Hrun as <-;
       destruct Inv as [Iadj Ilen Imark Ind Ireach Iclosed Ihead];
       rewrite app_nil_r in *;
       exists g, out; split_and!; try done; intros v; split;
       [ by apply Ireach
       | intros Hv; eapply closed_reachable; [done | apply Hv | by apply head_Some_elem_of] ].
  pose proof (getitem_list s g) as HL. pose proof (getitem_adj s g) as Hadj.
  destruct (getitem s g) as [g' L]. simpl in HL, Hadj. subst L.
  destruct Inv as [Iadj Ilen Imark Ind Ireach Iclosed Ihead].
  rewrite Iadj in Hrun.
  assert (reachable g0 s0 s) as Hs by (apply Ireach; set_solver).
  assert (∀ v, v ∈ adj g0 s → reachable g0 s0 v) as Hnext.
  { intros v Hv. eapply rtc_r; eauto. }
  destruct (visit_adjacent_spec (adj g0 s) visited queue (out ++ [s]))
    as (visited' & new & Hv & Hlen' & Hmark' & Hnd' & Hsub & Hall).
  { done. }
  { apply Forall_forall. intros v Hv. by apply in_range, Hnext. }
  { intros v Hv. rewrite <- app_assoc. by apply Imark. }
  { by rewrite <- app_assoc. }
  rewrite Hv in Hrun. apply IH in Hrun; [done|].
  split; try done.
  - intros u. by rewrite Hadj, Iadj.
  - intros v. rewrite !elem_of_app, list_elem_of_singleton.
    intros [[Hin| ->]|[Hin|Hin]]; auto; apply Ireach; set_solver.
  - intros u v [Hu| ->%list_elem_of_singleton]%elem_of_app Huv.
    + specialize (Iclosed u v Hu Huv). set_solver.
    + by apply Hall.
  - rewrite <- app_assoc. simpl. destruct out; simpl in *; done.
Qed.
End Correct.

End Graph_BFS_Facts.


Section BFSClaims.
Import Graph_BFS Graph_BFS_Facts.

Lemma dense_edge (g : gmap Z (list Z)) (u v : Z) :
  dense g = true → edge g u v → 0 ≤ v < Z.of_nat (size g).
Proof.
  unfold dense, edge, adj. intros Hd Hv.
  destruct (g !! u) as [l|] eqn:Hu; simpl in Hv; [|by apply elem_of_nil in Hv].
  rewrite forallb_forall in Hd.
  specialize (Hd (u, l)). rewrite <- list_elem_of_In, elem_of_map_to_list in Hd.
  specialize (Hd Hu). simpl in Hd.
  apply andb_prop in Hd as [_ Hl]. rewrite forallb_forall in Hl.
  specialize (Hl v). rewrite <- list_elem_of_In in Hl. specialize (Hl Hv).
  apply andb_prop in Hl as [?%Z.leb_le ?%Z.ltb_lt]. lia.
Qed.

Lemma dense_reachable (g : gmap Z (list Z)) (s : Z) :
  dense g = true → 0 ≤ s < Z.of_nat (size g) →
  ∀ v, reachable g s v → 0 ≤ v < Z.of_nat (size g).
Proof.
  intros Hd Hs v Hv. induction Hv as [|u w v Huw _ IH]; [done|].
  apply IH. by eapply dense_edge.
Qed.
End BFSClaims.

(** C8 as stated does not hold: on the graph with the edges 10 -> 20 and
    20 -> 10, whose source 10 is a key, [BFS] raises IndexError when it
    marks the source in its two-slot table, and prints nothing. *)
Lemma BFS_sparse_ids_counterexample :
  is_Some (Graph_BFS.sparse !! 10) ∧
  Graph_BFS.BFS 10 Graph_BFS.sparse =
    Some (Graph_BFS.sparse, [], inl (IndexError "list assignment index out of range")) ∧
  ¬ Graph_BFS.traverses Graph_BFS.sparse 10.
Proof.
  split; [by eexists|]. split; [by vm_compute|].
  intros (g' & out & H & _). vm_compute in H. discriminate.
Qed.

(** C8, amended.  For every graph and every source that is a key of it, if
    every node reachable from the source is an integer from 0 up to, but not
    including, the number of keys of the graph, then [BFS] ends normally and
    has printed the source first and then exactly the nodes reachable from
    it, each once. *)
Theorem BFS_traverses_indexed (g : gmap Z (list Z)) (s : Z) :
  is_Some (g !! s) →
  (∀ v, Graph_BFS.reachable g s v → 0 ≤ v < Z.of_nat (size g)) →
  Graph_BFS.traverses g s.
Proof.
  intros _ Hrange. unfold Graph_BFS.traverses.
  destruct (Graph_BFS_Facts.BFS_total s g) as [r Hr]. rewrite Hr.
  unfold Graph_BFS.BFS, Graph_BFS.list_setitem in Hr. rewrite length_replicate in Hr.
  assert (0 ≤ s < Z.of_nat (size g)) as Hs by (apply Hrange; constructor).
  rewrite (Graph_BFS_Facts.py_index_in_range _ _ Hs) in Hr.
  apply (Graph_BFS_Facts.bfs_while_spec g s (size g) Hrange) in Hr as (g' & out & -> & ?); [eauto|].
  split; simpl; try done.
  - by rewrite length_insert, length_replicate.
  - intros v Hv. destruct (decide (v = s)) as [->|Hne].
    + rewrite list_lookup_insert_eq by (rewrite length_replicate; lia). set_solver.
    + rewrite list_lookup_insert_ne by lia.
      rewrite lookup_replicate_2 by lia. set_solver.
  - apply NoDup_singleton.
  - intros v ->%list_elem_of_singleton. constructor.
  - set_solver.
Qed.

Lemma BFS_traverses_indexed_witness :
  is_Some (Graph_BFS.example !! 2) ∧
  (∀ v, Graph_BFS.reachable Graph_BFS.example 2 v →
        0 ≤ v < Z.of_nat (size Graph_BFS.example)) ∧
  Graph_BFS.traverses Graph_BFS.example 2.
Proof.
  assert (∀ v, Graph_BFS.reachable Graph_BFS.example 2 v →
               0 ≤ v < Z.of_nat (size Graph_BFS.example)) as Hrange.
  { apply dense_reachable; [vm_compute; reflexivity | vm_compute; split; congruence]. }
  split; [by eexists|]. split; [exact Hrange|].
  apply (BFS_traverses_indexed Graph_BFS.example 2); [by eexists | exact Hrange].
Defined.

(** The run of the usage note: starting from 2 the call prints 2 0 3 1. *)
Example BFS_usage_note :
  Graph_BFS.BFS 2 Graph_BFS.example = Some (Graph_BFS.example, [2; 0; 3; 1], inr tt).
Proof. by vm_compute. Qed.

(** Node numbers from zero are not enough: a node without outgoing edges has
    no key, so the table is too short for it. *)
Example BFS_sink_without_key :
  Graph_BFS.BFS 0 (Graph_BFS.addEdge 0 1 ∅) =
    Some (Graph_BFS.addEdge 0 1 ∅, [0], inl (IndexError "list index out of range")).
Proof. by vm_compute. Qed.

(** * The claim about the shortest path *)

(** C7.  [find_shortest_path] is expected to return a shortest path as a
    list of nodes (the comment above it gives ['A', 'B', 'D'] for A to D).
    As the module stands every call raises NameError, since nothing binds
    [deque]; and were [deque] bound to [collections.deque], the call from A
    to D on the built-in graph would return the nested list
    [[['A'], 'B'], 'D']. *)
Theorem find_shortest_path_raises_NameError :
  (∀ fuel start end_ self,
     Graph_Shortest_Path.find_shortest_path
       Graph_Shortest_Path.module_deque fuel start end_ self
     = Some (self, inl (NameError "deque"))) ∧
  Graph_Shortest_Path.find_shortest_path
    (Some Graph_Shortest_Path.collections_deque) 6 "A" "D"
    (Graph_Shortest_Path.init false)
  = Some (Graph_Shortest_Path.init false,
          inr (Some (Graph_Shortest_Path.PList
                       [Graph_Shortest_Path.PList
                          [Graph_Shortest_Path.PList [Graph_Shortest_Path.PStr "A"];
                           Graph_Shortest_Path.PStr "B"];
                        Graph_Shortest_Path.PStr "D"]))).
Proof. split; [done | by vm_compute]. Qed.

(** * Further properties of the registry *)

Section DictKeys.
Context {V : Type}.
Implicit Types (d : PyDict.t V) (k : string) (v : V).

Lemma filter_all {A} (P : A → Prop) `{∀ x, Decision (P x)} (l : list A) :
  Forall P l → filter P l = l.
Proof.
  induction 1 as [|x l Hx Hl IH]; [done|].
  by rewrite filter_cons_True, IH.
Qed.

Lemma key_get k d : k ∈ PyDict.keys d → is_Some (PyDict.get k d).
Proof.
  induction d as [|[k' v'] d IH]; simpl; [by intros ?%elem_of_nil|].
  destruct (String.eqb_spec k k') as [->|Hne]; [by eexists|].
  intros [?|?]%elem_of_cons; [done | by apply IH].
Qed.

Lemma keys_set k v d :
  PyDict.keys (PyDict.set k v d) =
    if PyDict.contains k d then PyDict.keys d else PyDict.keys d ++ [k].
Proof.
  unfold PyDict.contains, PyDict.keys.
  induction d as [|[k' v'] d IH]; simpl; [done|].
  destruct (String.eqb_spec k k') as [->|]; simpl; [done|].
  rewrite IH. by destruct (PyDict.get k d).
Qed.

Lemma keys_pop k d :
  NoDup (PyDict.keys d) →
  PyDict.keys (PyDict.pop k d) = filter (λ k', k' ≠ k) (PyDict.keys d).
Proof.
  unfold PyDict.keys.
  induction d as [|[k' v'] d IH]; simpl; [done|].
  intros [Hnotin Hnd]%NoDup_cons.
  destruct (String.eqb_spec k k') as [->|Hne]; simpl.
  - rewrite filter_cons_False by (intros H; by apply H).
    symmetry. apply filter_all, Forall_forall. by intros k ? ->.
  - rewrite filter_cons_True by congruence. by rewrite IH.
Qed.
End DictKeys.

Lemma keys_remove_from_all id ks (d : PyDict.t entry) :
  PyDict.keys (remove_from_all id ks d).1 = PyDict.keys d.
Proof.
  revert d. induction ks as [|k ks IH]; intros d; simpl; [done|].
  destruct (PyDict.get k d) as [e|] eqn:Hk; [|done].
  unfold set_remove. destruct (decide (id ∈ connected e)); simpl; [|done].
  rewrite IH, keys_set. unfold PyDict.contains. by rewrite Hk.
Qed.

(** The loop of [set_offline] runs to its end exactly when every peer it
    goes through holds [id]. *)
Lemma remove_from_all_returns_iff id ks (d : PyDict.t entry) :
  NoDup ks →
  (remove_from_all id ks d).2 = inr tt ↔
  ∀ k, k ∈ ks → ∃ e, PyDict.get k d = Some e ∧ id ∈ connected e.
Proof.
  intros Hnd. revert d. induction Hnd as [|k0 ks Hnotin Hnd IH]; intros d; simpl.
  - split; [by intros _ k ?%elem_of_nil | done].
  - destruct (PyDict.get k0 d) as [e0|] eqn:H0.
    + unfold set_remove. destruct (decide (id ∈ connected e0)) as [Hin|Hout]; simpl.
      * rewrite IH. split.
        -- intros H k [->|Hk]%elem_of_cons; [eauto|].
           destruct (H k Hk) as (e & He & ?). exists e.
           rewrite get_set_ne in He by (by intros ->). done.
        -- intros H k Hk. destruct (H k) as (e & He & ?); [set_solver|].
           exists e. by rewrite get_set_ne by (by intros ->).
      * split; [done|]. intros H. destruct (H k0) as (e & He & ?); [set_solver|].
        congruence.
    + split; [done|]. intros H. destruct (H k0) as (e & He & ?); [set_solver|].
      congruence.
Qed.

Lemma connect_absent a b self :
  a ≠ b →
  PyDict.get a (_peers self) = None ∨ PyDict.get b (_peers self) = None →
  connect a b self = (self, inr false).
Proof.
  intros Hne Hoff. unfold connect.
  destruct (String.eqb_spec a b); [done|].
  rewrite <- !contains_false in Hoff.
  by destruct Hoff as [-> | ->]; rewrite ?andb_false_r.
Qed.

(** X1.  [connect] never changes the registry, whatever it returns or
    raises. *)
Theorem connect_leaves_registry (a b : string) (self : Peer) :
  (connect a b self).1 = self.
Proof. apply connect_registry_unchanged. Qed.

(** X2.  [connect] returns True exactly when the two ids differ, [id_to] is
    online and [id_to] is already in the connected set of [id_from]: it
    reports an existing edge and never makes one. *)
Theorem connect_true_iff (a b : string) (self : Peer) :
  (connect a b self).2 = inr true ↔
  a ≠ b ∧ isonline b self = true ∧ is_connected a b self.
Proof.
  destruct (decide (a = b)) as [->|Hne].
  { unfold connect. rewrite String.eqb_refl. simpl. split; [done | by intros [? _]]. }
  destruct (PyDict.get a (_peers self)) as [ea|] eqn:Ha.
  - destruct (PyDict.get b (_peers self)) as [eb|] eqn:Hb.
    + rewrite (connect_online a b self ea eb) by done. simpl.
      assert (isonline b self = true) as Hon by (apply isonline_get; eauto).
      destruct (decide (b ∈ connected ea)) as [Hin|Hout].
      * split; [|done]. intros _. split_and!; try done. by exists ea.
      * split.
        -- by destruct (_ && _).
        -- intros (_ & _ & e & He & Hin). congruence.
    + rewrite connect_absent by auto. simpl.
      split; [done|]. intros (_ & Hon & _).
      apply isonline_get in Hon as [? ?]. congruence.
  - rewrite connect_absent by auto. simpl.
    split; [done|]. intros (_ & _ & e & He & _). congruence.
Qed.

(** X3.  No sequence of calls on a newly initialised registry ever gives
    a peer a connection: [num_connected] of every online peer is 0. *)
Theorem degree_zero_after_any_run (n : Z) (ops : list op) (a : string) :
  isonline a (run ops (init n)) = true →
  num_connected a (run ops (init n)) = (run ops (init n), inr 0).
Proof.
  intros [e He]%isonline_get.
  pose proof (run_all_empty ops (init n) (init_all_empty n)) as H.
  unfold num_connected. rewrite He.
  by rewrite (every_get _ _ _ _ H He), size_empty.
Qed.

Lemma degree_zero_after_any_run_witness :
  num_connected "abc"
    (run [SetOnline "abc"; SetOnline "0"; Connect "abc" "0"; SetOffline "0"] (init 1024))
  = (run [SetOnline "abc"; SetOnline "0"; Connect "abc" "0"; SetOffline "0"] (init 1024),
     inr 0).
Proof. apply degree_zero_after_any_run. reflexivity. Defined.

(** X4.  [set_online] never raises and leaves [id] online and [N] as it
    was; an id that was not online goes to the end of [all_online] with an
    empty connected set, and no other entry changes. *)
Theorem set_online_effect (id : string) (self : Peer) :
  (set_online id self).2 = inr tt ∧
  isonline id (set_online id self).1 = true ∧
  N (set_online id self).1 = N self ∧
  all_online (set_online id self).1 =
    (if isonline id self then all_online self else all_online self ++ [id]) ∧
  ∀ k, PyDict.get k (_peers (set_online id self).1) =
       if decide (k = id ∧ isonline id self = false) then Some (Entry ∅)
       else PyDict.get k (_peers self).
Proof.
  unfold set_online, isonline, all_online.
  destruct (PyDict.contains id (_peers self)) eqn:Hid; simpl.
  - rewrite Hid. split_and!; try done.
    intros k. by rewrite decide_False by (by intros [_ ?]).
  - split_and!; try done.
    + unfold PyDict.contains. by rewrite get_set_eq.
    + by rewrite keys_set, Hid.
    + intros k. destruct (decide (k = id)) as [->|Hne].
      * by rewrite get_set_eq, decide_True.
      * rewrite get_set_ne by done. by rewrite decide_False by (by intros [? _]).
Qed.

Lemma step_keys_unique self o :
  NoDup (all_online self) → NoDup (all_online (step self o)).
Proof.
  unfold all_online. intros Hnd. destruct o as [id|id|a b]; simpl.
  - unfold set_online. destruct (PyDict.contains id (_peers self)) eqn:Hid; simpl; [done|].
    rewrite keys_set, Hid. apply NoDup_app. split_and!; [done| |apply NoDup_singleton].
    intros k Hk ->%list_elem_of_singleton.
    apply key_get in Hk as [v Hv]. unfold PyDict.contains in Hid. by rewrite Hv in Hid.
  - unfold set_offline. destruct (PyDict.contains id (_peers self)); [|done].
    pose proof (keys_remove_from_all id (PyDict.keys (PyDict.pop id (_peers self)))
                  (PyDict.pop id (_peers self))) as Hk.
    destruct (remove_from_all _ _ _) as [d' r]. simpl in *.
    rewrite Hk, keys_pop by done. by apply NoDup_filter.
  - by rewrite connect_registry_unchanged.
Qed.

(** X5.  [all_online] never lists an id twice: calls on a registry with
    distinct keys leave a registry with distinct keys, whether they return
    or raise. *)
Theorem online_ids_unique (self : Peer) (ops : list op) :
  NoDup (all_online self) → NoDup (all_online (run ops self)).
Proof.
  revert self. induction ops as [|o ops IH]; intros self H; simpl; [done|].
  by apply IH, step_keys_unique.
Qed.

Lemma online_ids_unique_witness :
  NoDup (all_online (run [SetOnline "a"; SetOnline "b"; SetOnline "a"; SetOffline "b";
                          SetOnline "b"] (init 1024))).
Proof. apply online_ids_unique. apply NoDup_nil_2. Defined.

(** X6.  After [set_offline id], whether it returned or raised,
    [all_online] is what it was without [id], in the same order. *)
Theorem set_offline_online_ids (id : string) (self : Peer) :
  NoDup (all_online self) →
  all_online (set_offline id self).1 = filter (λ k, k ≠ id) (all_online self).
Proof.
  unfold all_online, set_offline. intros Hnd.
  destruct (PyDict.contains id (_peers self)) eqn:Hid.
  - pose proof (keys_remove_from_all id (PyDict.keys (PyDict.pop id (_peers self)))
                  (PyDict.pop id (_peers self))) as Hk.
    destruct (remove_from_all _ _ _) as [d' r]. simpl in *.
    by rewrite Hk, keys_pop.
  - simpl. symmetry. apply filter_all, Forall_forall. intros k Hk ->.
    apply key_get in Hk as [v Hv]. unfold PyDict.contains in Hid. by rewrite Hv in Hid.
Qed.

Lemma set_offline_online_ids_witness :
  all_online (set_offline "123" two_online).1 = filter (λ k, k ≠ "123") (all_online two_online).
Proof.
  apply set_offline_online_ids. vm_compute. repeat constructor; set_solver.
Defined.

(** X7.  [set_offline] of an online id returns normally exactly when every
    other online peer holds [id] in its connected set; if one does not, it
    raises. *)
Theorem set_offline_returns_iff (id : string) (self : Peer) :
  NoDup (all_online self) →
  isonline id self = true →
  (set_offline id self).2 = inr tt ↔
  ∀ k e, k ≠ id → PyDict.get k (_peers self) = Some e → id ∈ connected e.
Proof.
  unfold all_online, set_offline, isonline. intros Hnd Hon.
  destruct (PyDict.contains id (_peers self)); [|done].
  pose proof (remove_from_all_returns_iff id (PyDict.keys (PyDict.pop id (_peers self)))
                (PyDict.pop id (_peers self))) as Hiff.
  destruct (remove_from_all _ _ _) as [d' r]. simpl in *.
  rewrite Hiff by (rewrite keys_pop by done; by apply NoDup_filter).
  split.
  - intros H k e Hne Hk. destruct (H k) as (e' & He' & Hin).
    + rewrite keys_pop by done. apply list_elem_of_filter. split; [done|].
      by apply (get_key k e).
    + rewrite get_pop_ne in He' by congruence. congruence.
  - intros H k Hk. rewrite keys_pop in Hk by done.
    apply list_elem_of_filter in Hk as [Hne Hk].
    apply key_get in Hk as [e He]. exists e.
    rewrite get_pop_ne by congruence. eauto.
Qed.

Lemma set_offline_returns_iff_witness :
  (set_offline "A" linked_pair).2 = inr tt ↔
  ∀ k e, k ≠ "A" → PyDict.get k (_peers linked_pair) = Some e → "A" ∈ connected e.
Proof.
  apply set_offline_returns_iff; [|reflexivity].
  vm_compute. repeat constructor; set_solver.
Defined.

(** X19.  When [set_offline] of an online id returns, [id] has no entry
    left, every other peer has lost [id] from its connected set, and
    nothing else has changed. *)
Theorem set_offline_cleans_up (id : string) (self self' : Peer) :
  NoDup (all_online self) →
  isonline id self = true →
  set_offline id self = (self', inr tt) →
  N self' = N self ∧
  ∀ k, PyDict.get k (_peers self') =
       if decide (k = id) then None else without id <$> PyDict.get k (_peers self).
Proof.
  intros Hnd Hon Hrun. split.
  - pose proof (step_N self (SetOffline id)) as HN. simpl in HN. by rewrite Hrun in HN.
  - by apply set_offline_returns.
Qed.

Lemma set_offline_cleans_up_witness :
  N (set_offline "A" linked_pair).1 = N linked_pair ∧
  ∀ k, PyDict.get k (_peers (set_offline "A" linked_pair).1) =
       if decide (k = "A") then None
       else without "A" <$> PyDict.get k (_peers linked_pair).
Proof.
  apply set_offline_cleans_up; [|reflexivity|reflexivity].
  vm_compute. repeat constructor; set_solver.
Defined.

Lemma isonline_keys k self : isonline k self = true ↔ k ∈ all_online self.
Proof.
  rewrite isonline_get. unfold all_online. split.
  - intros [e He]. by apply (get_key k e).
  - apply key_get.
Qed.

(** X20.  After [set_offline id], whether it returned or raised, [id] is
    not online and every other id is online exactly if it was before. *)
Theorem set_offline_isonline (id k : string) (self : Peer) :
  NoDup (all_online self) →
  isonline k (set_offline id self).1 = if decide (k = id) then false else isonline k self.
Proof.
  intros Hnd.
  assert (all_online (set_offline id self).1 = filter (λ k, k ≠ id) (all_online self))
    as Hkeys.
  { unfold all_online, set_offline in *.
    destruct (PyDict.contains id (_peers self)) eqn:Hid.
    - pose proof (keys_remove_from_all id (PyDict.keys (PyDict.pop id (_peers self)))
                    (PyDict.pop id (_peers self))) as Hk.
      destruct (remove_from_all _ _ _) as [d' r]. simpl in *.
      by rewrite Hk, keys_pop.
    - simpl. symmetry. apply filter_all, Forall_forall. intros k' Hk' ->.
      apply key_get in Hk' as [v Hv]. unfold PyDict.contains in Hid. by rewrite Hv in Hid. }
  apply eq_true_iff_eq.
  rewrite isonline_keys, Hkeys, list_elem_of_filter.
  destruct (decide (k = id)) as [->|Hne].
  - split; [by intros [? _] | done].
  - rewrite isonline_keys. split; [by intros [_ ?] | done].
Qed.

Lemma set_offline_isonline_witness :
  isonline "123" (set_offline "123" two_online).1 =
    if decide ("123" = "123") then false else isonline "123" two_online.
Proof.
  apply set_offline_isonline. vm_compute. repeat constructor; set_solver.
Defined.

(** X8.  No sequence of [set_online], [set_offline] and [connect] calls
    changes [N]. *)
Theorem cap_never_changes (ops : list op) (self : Peer) : N (run ops self) = N self.
Proof. apply run_N. Qed.

(** X9.  [send_msg] never prints, never changes the registry and never
    returns normally: every call ends in an exception. *)
Theorem send_msg_never_sends (self : Peer) (a b msg : string) :
  ∃ err, send_msg a b msg self = (self, [], inl err).
Proof.
  unfold send_msg. destruct (String.eqb a b); by eexists.
Qed.

(** X10.  While no instance exists, constructing with an argument raises
    TypeError and stores no instance: the first construction has to be
    [Peer()]. *)
Theorem first_construction_takes_no_argument (w : World) (n : Z) :
  _instance w = None →
  ∃ msg, Peer_call (Some n) w = (w, inl (TypeError msg)).
Proof.
  intros Hnone. unfold Peer_call, Cache_Singleton_new. rewrite Hnone. by eexists.
Qed.

Lemma first_construction_takes_no_argument_witness :
  ∃ msg, Peer_call (Some 5) boot = (boot, inl (TypeError msg)).
Proof. apply first_construction_takes_no_argument. reflexivity. Defined.

(** X11.  Two constructions that both succeed return the same object,
    whatever their arguments and whatever method ran on the object in
    between. *)
Theorem constructions_share_instance {A} (w w1 w2 : World) (a1 a2 : option Z)
    (m : M A) (l1 l2 : loc) :
  Peer_call a1 w = (w1, inr l1) →
  Peer_call a2 (on l1 m w1).1 = (w2, inr l2) →
  l2 = l1.
Proof.
  intros H1 H2.
  assert (_instance w1 = Some l1) as Hinst.
  { unfold Peer_call, Cache_Singleton_new in H1.
    destruct (_instance w) as [l|] eqn:Hw.
    - injection H1 as <- <-. done.
    - destruct a1; [done|]. injection H1 as <- <-. done. }
  unfold Peer_call, Cache_Singleton_new in H2.
  rewrite on_instance, Hinst in H2. by injection H2 as _ <-.
Qed.

Lemma constructions_share_instance_witness :
  ∃ w1 w2 l1 l2,
    Peer_call None boot = (w1, inr l1) ∧
    Peer_call (Some 5) (on l1 (set_online "a") w1).1 = (w2, inr l2) ∧
    l2 = l1.
Proof.
  eexists _, _, _, _. split; [reflexivity|]. split; [reflexivity|].
  eapply (constructions_share_instance boot _ _ None (Some 5) (set_online "a"));
    reflexivity.
Defined.

(** * Further properties of the breadth-first traversal *)

Section BFSMore.
Import Graph_BFS Graph_BFS_Facts.

Lemma bfs_while_printed fuel g visited queue out g' out' res :
  bfs_while fuel g visited queue out = Some (g', out', res) →
  (length out' ≤ length out + length queue + unvisited visited)%nat.
Proof.
  revert g visited queue out.
  induction fuel as [|fuel IH]; intros g visited [|s queue] out Hrun;
    simpl in Hrun; try done.
  1,2: injection Hrun as <- <- <-; lia.
  destruct (getitem s g) as [g1 L].
  destruct (visit_adjacent L visited queue) as [e|[visited' queue']] eqn:Hv.
  - injection Hrun as <- <- <-. rewrite length_app. simpl. lia.
  - apply visit_adjacent_measure in Hv as [_ Hm]. apply IH in Hrun.
    rewrite length_app in Hrun. simpl in *. lia.
Qed.

Lemma visit_adjacent_general n L visited queue pre visited' queue' :
  length visited = n →
  (∀ v, v ∈ pre ++ queue → marked n visited v) →
  NoDup (pre ++ queue) →
  visit_adjacent L visited queue = inr (visited', queue') →
  ∃ new, queue' = queue ++ new ∧
         (∀ v, v ∈ pre ++ queue ++ new → marked n visited' v) ∧
         NoDup (pre ++ queue ++ new) ∧
         (∀ v, v ∈ new → v ∈ L).
Proof.
  revert visited queue.
  induction L as [|i L IH]; intros visited queue Hlen Hmark Hnd Hrun; simpl in Hrun.
  - injection Hrun as <- <-. exists []. rewrite !app_nil_r. set_solver.
  - unfold list_getitem, list_setitem in Hrun. rewrite Hlen in Hrun.
    destruct (py_index n i) as [j|] eqn:Hj; simpl in Hrun; [|done].
    destruct (visited !! j) as [[]|] eqn:Hvj; simpl in Hrun; try done.
    + destruct (IH _ _ Hlen Hmark Hnd Hrun) as (new & -> & ? & ? & ?).
      exists new. set_solver.
    + assert (i ∉ pre ++ queue) as Hfresh.
      { intros (j' & Hj' & Hm)%Hmark. congruence. }
      destruct (IH (<[j := true]> visited) (queue ++ [i])) as (new & -> & Hm & Hn & Hs).
      * by rewrite length_insert.
      * intros v Hv. rewrite app_assoc in Hv.
        apply elem_of_app in Hv as [Hv| ->%list_elem_of_singleton].
        -- destruct (Hmark v Hv) as (jv & Hjv & Hmv). exists jv. split; [done|].
           destruct (decide (j = jv)) as [->|Hne].
           ++ apply list_lookup_insert_eq. by eapply lookup_lt_Some.
           ++ by rewrite list_lookup_insert_ne.
        -- exists j. split; [done|]. apply list_lookup_insert_eq.
           by eapply lookup_lt_Some.
      * rewrite app_assoc. apply NoDup_app. split; [done|].
        split; [set_solver | apply NoDup_singleton].
      * done.
      * exists (i :: new). rewrite <- !app_assoc in *. simpl in *.
        split_and!; try done. set_solver.
Qed.

Lemma bfs_while_general g0 s0 n fuel g visited queue out g' out' res :
  length visited = n →
  (∀ u, adj g u = adj g0 u) →
  (∀ v, v ∈ out ++ queue → marked n visited v) →
  NoDup (out ++ queue) →
  (∀ v, v ∈ out ++ queue → reachable g0 s0 v) →
  head (out ++ queue) = Some s0 →
  bfs_while fuel g visited queue out = Some (g', out', res) →
  NoDup out' ∧ (∀ v, v ∈ out' → reachable g0 s0 v) ∧ head out' = Some s0.
Proof.
  revert g visited queue out.
  induction fuel as [|fuel IH];
    intros g visited [|s queue] out Hlen Hadj Hmark Hnd Hreach Hhead Hrun;
    simpl in Hrun; try done.
  1,2: injection Hrun as <- <- <-; by rewrite app_nil_r in *.
  pose proof (getitem_list s g) as HL. pose proof (getitem_adj s g) as Hadj1.
  destruct (getitem s g) as [g1 L]. simpl in HL, Hadj1. subst L.
  rewrite Hadj in Hrun.
  assert (reachable g0 s0 s) as Hs by (apply Hreach; set_solver).
  destruct (visit_adjacent (adj g0 s) visited queue) as [e|[visited' queue']] eqn:Hv.
  - injection Hrun as <- <- <-. split_and!.
    + rewrite cons_middle, app_assoc in Hnd. by apply NoDup_app in Hnd as [? _].
    + intros v Hv'. apply Hreach. set_solver.
    + destruct out; simpl in *; done.
  - pose proof (visit_adjacent_measure _ _ _ _ _ Hv) as [Hlen' _].
    destruct (visit_adjacent_general n (adj g0 s) visited queue (out ++ [s])
                visited' queue' Hlen) as (new & -> & Hm & Hn & Hsub).
    { intros v Hv'. apply Hmark. by rewrite <- app_assoc in Hv'. }
    { by rewrite <- app_assoc. }
    { done. }
    apply IH in Hrun; try done.
    + congruence.
    + intros u. by rewrite Hadj1, Hadj.
    + intros v. rewrite !elem_of_app, list_elem_of_singleton.
      intros [[Hin| ->]|[Hin|Hin]].
      * apply Hreach, elem_of_app. by left.
      * done.
      * apply Hreach, elem_of_app. right. by apply elem_of_cons; right.
      * eapply rtc_r; [exact Hs|]. by apply Hsub.
    + rewrite <- app_assoc. simpl. destruct out; simpl in *; done.
Qed.

Lemma bfs_while_graph fuel g visited queue out g' out' res :
  bfs_while fuel g visited queue out = Some (g', out', res) →
  ∃ more, out' = out ++ more ∧
    ∀ u, g' !! u = match g !! u with
                   | Some l => Some l
                   | None => if decide (u ∈ more) then Some [] else None
                   end.
Proof.
  revert g visited queue out.
  induction fuel as [|fuel IH]; intros g visited [|s queue] out Hrun;
    simpl in Hrun; try done.
  1,2: injection Hrun as <- <- <-; exists []; rewrite app_nil_r; split; [done|];
       intros u; destruct (g !! u); [done|]; by rewrite decide_False by set_solver.
  assert (∀ u, (getitem s g).1 !! u =
               match g !! u with
               | Some l => Some l
               | None => if decide (u = s) then Some [] else None
               end) as Hg1.
  { intros u. unfold getitem. destruct (g !! s) eqn:Hs; simpl.
    - destruct (g !! u) eqn:Hu; [done|]. rewrite decide_False; [done|]. congruence.
    - destruct (decide (u = s)) as [->|Hne].
      + by rewrite lookup_insert_eq, Hs.
      + rewrite lookup_insert_ne by done. by destruct (g !! u). }
  destruct (getitem s g) as [g1 L]. simpl in Hg1.
  destruct (visit_adjacent L visited queue) as [e|[visited' queue']] eqn:Hv.
  - injection Hrun as <- <- <-. exists [s]. split; [done|].
    intros u. rewrite Hg1. destruct (g !! u); [done|].
    destruct (decide (u = s)) as [->|].
    + by rewrite decide_True by set_solver.
    + by rewrite decide_False by set_solver.
  - apply IH in Hrun as (more & -> & Hg'). exists (s :: more).
    split; [by rewrite <- app_assoc|].
    intros u. rewrite Hg', Hg1. destruct (g !! u); [done|].
    destruct (decide (u = s)) as [->|].
    + by rewrite decide_True by set_solver.
    + destruct (decide (u ∈ more)).
      * by rewrite decide_True by set_solver.
      * by rewrite decide_False by set_solver.
Qed.
End BFSMore.

(** X12.  [BFS] ends on every graph and source, normally or with an
    exception, and has printed at most [len(self.graph)] nodes. *)
Theorem BFS_terminates_bounded (g : gmap Z (list Z)) (s : Z) :
  ∃ g' out res, Graph_BFS.BFS s g = Some (g', out, res) ∧
                (length out ≤ size g)%nat.
Proof.
  destruct (Graph_BFS_Facts.BFS_total s g) as [[[g' out] res] Hr].
  exists g', out, res. split; [done|].
  unfold Graph_BFS.BFS, Graph_BFS.list_setitem in Hr. rewrite length_replicate in Hr.
  destruct (Graph_BFS.py_index (size g) s) as [j|] eqn:Hj.
  - apply bfs_while_printed in Hr. simpl in Hr.
    pose proof (Graph_BFS_Facts.unvisited_mark (replicate (size g) false) j) as Hm.
    rewrite lookup_replicate_2 in Hm by (by eapply Graph_BFS_Facts.py_index_lt).
    specialize (Hm eq_refl). rewrite Graph_BFS_Facts.unvisited_replicate in Hm. lia.
  - injection Hr as <- <- <-. simpl. lia.
Qed.

(** X13.  However [BFS] ends, on any graph and source, it has printed no
    node twice, only nodes reachable from the source, and the source first
    if it printed anything. *)
Theorem BFS_prints_reachable_once (g g' : gmap Z (list Z)) (s : Z)
    (out : list Z) (res : exn + unit) :
  Graph_BFS.BFS s g = Some (g', out, res) →
  NoDup out ∧ (∀ v, v ∈ out → Graph_BFS.reachable g s v) ∧
  (out = [] ∨ head out = Some s).
Proof.
  unfold Graph_BFS.BFS, Graph_BFS.list_setitem. rewrite length_replicate.
  destruct (Graph_BFS.py_index (size g) s) as [j|] eqn:Hj.
  - intros Hr.
    apply (bfs_while_general g s (size g)) in Hr as (? & ? & ?); [by auto|..].
    + by rewrite length_insert, length_replicate.
    + done.
    + intros v ->%list_elem_of_singleton. exists j. split; [done|].
      apply list_lookup_insert_eq. rewrite length_replicate.
      by eapply Graph_BFS_Facts.py_index_lt.
    + apply NoDup_singleton.
    + intros v ->%list_elem_of_singleton. constructor.
    + done.
  - intros [= <- <- <-]. split_and!; [apply NoDup_nil_2 | set_solver | by left].
Qed.

Lemma BFS_prints_reachable_once_witness :
  NoDup [0] ∧ (∀ v, v ∈ [0] → Graph_BFS.reachable (Graph_BFS.addEdge 0 1 ∅) 0 v) ∧
  ([0] = [] ∨ head [0] = Some 0).
Proof.
  apply (BFS_prints_reachable_once (Graph_BFS.addEdge 0 1 ∅) (Graph_BFS.addEdge 0 1 ∅) 0
           [0] (inl (IndexError "list index out of range"))).
  by vm_compute.
Defined.

(** X14.  A source that is not an index of a list of [len(self.graph)]
    items, so also any source on the empty graph, makes [BFS] raise
    IndexError with nothing printed and the graph untouched. *)
Theorem BFS_source_out_of_range (g : gmap Z (list Z)) (s : Z) :
  s < - Z.of_nat (size g) ∨ Z.of_nat (size g) ≤ s →
  Graph_BFS.BFS s g =
    Some (g, [], inl (IndexError "list assignment index out of range")).
Proof.
  intros Hs. unfold Graph_BFS.BFS, Graph_BFS.list_setitem, Graph_BFS.py_index.
  rewrite length_replicate.
  destruct (Z.leb_spec 0 s), (Z.ltb_spec s (Z.of_nat (size g))); simpl; try lia;
    destruct (Z.leb_spec (- Z.of_nat (size g)) s), (Z.ltb_spec s 0); simpl;
    try lia; done.
Qed.

Lemma BFS_source_out_of_range_witness :
  Graph_BFS.BFS 0 ∅ = Some (∅, [], inl (IndexError "list assignment index out of range")).
Proof. apply BFS_source_out_of_range. right. vm_compute. discriminate. Defined.

(** X15.  [BFS] changes [self.graph]: when the call is over, every printed
    node that had no key has one, with an empty list, and nothing else has
    changed. *)
Theorem BFS_adds_keys_for_printed (g g' : gmap Z (list Z)) (s : Z)
    (out : list Z) (res : exn + unit) :
  Graph_BFS.BFS s g = Some (g', out, res) →
  ∀ u, g' !! u = match g !! u with
                 | Some l => Some l
                 | None => if decide (u ∈ out) then Some [] else None
                 end.
Proof.
  unfold Graph_BFS.BFS. destruct (Graph_BFS.list_setitem _ _ _) as [e|visited].
  - intros [= <- <- <-] u. destruct (g !! u); [done|].
    by rewrite decide_False by set_solver.
  - intros (more & -> & H)%bfs_while_graph. done.
Qed.

Lemma BFS_adds_keys_for_printed_witness :
  ({[0 := [1]; 1 := []; 5 := [0]]} : gmap Z (list Z)) !! 1 =
    match ({[0 := [1]; 5 := [0]]} : gmap Z (list Z)) !! 1 with
    | Some l => Some l
    | None => if decide (1 ∈ [0; 1]) then Some [] else None
    end.
Proof.
  apply (BFS_adds_keys_for_printed {[0 := [1]; 5 := [0]]} _ 0 [0; 1] (inr tt)).
  by vm_compute.
Defined.

(** X16.  After [addEdge(u, v)] the list of [u] is its old list, empty if
    [u] had no key, followed by [v]; every other key, [v] included, is as
    before. *)
Theorem addEdge_lookup (u v w : Z) (g : gmap Z (list Z)) :
  Graph_BFS.addEdge u v g !! w =
    if decide (w = u) then Some (Graph_BFS.adj g u ++ [v]) else g !! w.
Proof.
  unfold Graph_BFS.addEdge, Graph_BFS.getitem, Graph_BFS.adj.
  destruct (g !! u) as [l|] eqn:Hu; simpl;
    (destruct (decide (w = u)) as [->|Hne];
     [by rewrite lookup_insert_eq | rewrite !lookup_insert_ne by done; done]).
Qed.

(** * The other path searches *)

Section PathSearches.
Import Graph_Shortest_Path.

Lemma pick_shortest_unbound self adj end_ path shortest :
  pick_shortest module_find_shortest_path self adj end_ path shortest =
    if forallb (λ node, bool_decide (node ∈ path)) adj then inr shortest
    else inl (NameError "find_shortest_path").
Proof.
  induction adj as [|node adj IH]; simpl; [done|].
  destruct (bool_decide (node ∈ path)); simpl; [apply IH | done].
Qed.

(** X17.  As the module stands, [find_all_paths] answers only for
    [start == end], with the single path [path + [start]]; for any other
    pair it raises AttributeError at [has_key], the graph untouched. *)
Theorem find_all_paths_only_trivial (start end_ : string) (path : list string) (self : t) :
  find_all_paths dict_has_key module_find_all_paths start end_ path self =
    (self, if decide (start = end_) then inr [path ++ [start]]
           else inl (AttributeError "has_key")).
Proof.
  unfold find_all_paths. simpl.
  destruct (String.eqb_spec start end_); by rewrite ?decide_True, ?decide_False by done.
Qed.

(** X18.  As the module stands, [find_shortest_path_exponential] returns a
    path only for [start == end]; otherwise it returns None when [start]
    has no key or all its neighbours are already on the path, and raises
    NameError at the first neighbour that is not.  The graph is left
    untouched. *)
Theorem find_shortest_path_exponential_outcome
    (start end_ : string) (path : list string) (self : t) :
  find_shortest_path_exponential module_find_shortest_path start end_ path self =
    (self,
     if decide (start = end_) then inr (Some (path ++ [start]))
     else match PyDict.get start (graph self) with
          | None => inr None
          | Some adj =>
              if forallb (λ node, bool_decide (node ∈ path ++ [start])) adj
              then inr None
              else inl (NameError "find_shortest_path")
          end).
Proof.
  unfold find_shortest_path_exponential, getitem, PyDict.contains.
  destruct (String.eqb_spec start end_) as [->|Hne].
  - by rewrite decide_True.
  - rewrite decide_False by done.
    destruct (PyDict.get start (graph self)) as [adj|]; simpl; [|done].
    by rewrite pick_shortest_unbound.
Qed.
End PathSearches.
